(** * Bandwidth allocation engine: a shallow embedding of [bandwidth_app.py]

    The four allocators ([greedy_allocation], [random_allocation],
    [dynamic_allocation], [backtracking_allocation]) and the comparator
    [auto_select] are embedded as Rocq functions over [Z] (Python integers
    are unbounded) and [list Z] (Python lists).  Code that can raise
    (list indexing in [dynamic_allocation], the recursion of
    [backtracking_allocation]) lives in a small error monad. *)

From stdpp Require Import base list strings numbers sorting.
From Stdlib Require Import ZArith Lia.

Local Open Scope Z_scope.

(** ** Python primitives used by the allocators *)

Module Py.

(** The exceptions the allocators can raise: list indexing out of range
    (in [dynamic_allocation]) and recursion beyond the interpreter's
    recursion limit (in [backtracking_allocation]). *)
Inductive exn : Type := IndexError | RecursionError.

Inductive outcome (A : Type) : Type :=
| Returned (a : A)
| Raised (e : exn).
Arguments Returned {A} a.
Arguments Raised {A} e.

#[global] Instance outcome_ret : MRet outcome := λ A a, Returned a.
#[global] Instance outcome_bind : MBind outcome := λ A B k m,
  match m with
  | Returned a => k a
  | Raised e => Raised e
  end.

(** [sum(l)]: left-to-right accumulation starting from 0. *)
Definition sum (l : list Z) : Z := foldl Z.add 0 l.

(** [len(l)] as a Python integer. *)
Definition len {A} (l : list A) : Z := Z.of_nat (length l).

(** [sorted(l, reverse=True)] on integers: the descending rearrangement
    of [l].  Equal integers are indistinguishable, so the result does not
    depend on the sorting algorithm; insertion sort is used here. *)
Fixpoint insert_desc (x : Z) (l : list Z) : list Z :=
  match l with
  | [] => [x]
  | y :: l' => if x <? y then y :: insert_desc x l' else x :: l
  end.

Definition sorted_reverse (l : list Z) : list Z := foldr insert_desc [] l.

(** [range(a, b)] and [range(b, a, -1)]. *)
Definition range (a b : Z) : list Z := seqZ a (b - a).
Definition range_down (b a : Z) : list Z := reverse (seqZ (a + 1) (b - a)).

(** [[x] * k]: the empty list when [k <= 0]. *)
Definition repeat {A} (x : A) (k : Z) : list A := replicate (Z.to_nat k) x.

(** Position denoted by a Python index: negative indices count from the
    end; anything outside [-len, len) is an [IndexError]. *)
Definition position {A} (l : list A) (i : Z) : outcome nat :=
  let j := if i <? 0 then i + len l else i in
  if (0 <=? j) && (j <? len l) then Returned (Z.to_nat j) else Raised IndexError.

(** [l[i]] *)
Definition getitem {A} (l : list A) (i : Z) : outcome A :=
  p ← position l i;
  match l !! p with
  | Some x => Returned x
  | None => Raised IndexError
  end.

(** [l[i] = v] *)
Definition setitem {A} (l : list A) (i : Z) (v : A) : outcome (list A) :=
  p ← position l i; mret (<[p := v]> l).

End Py.

Import Py.

(** ** The allocators *)

(** *** greedy_allocation *)

(** The [for d in sorted(demands, reverse=True)] loop; [break] ends the
    iteration with the state reached so far. *)
Fixpoint greedy_loop (ds : list Z) (allocation : list Z) (remaining : Z)
  : list Z * Z :=
  match ds with
  | [] => (allocation, remaining)
  | d :: ds' =>
      let alloc := Z.min d remaining in
      let allocation := allocation ++ [alloc] in
      let remaining := remaining - alloc in
      if remaining <=? 0 then (allocation, remaining)
      else greedy_loop ds' allocation remaining
  end.

Definition greedy_allocation (total_bandwidth : Z) (demands : list Z)
  : list Z * Z :=
  let '(allocation, remaining) :=
    greedy_loop (sorted_reverse demands) [] total_bandwidth in
  (allocation, total_bandwidth - remaining).

(** *** random_allocation *)

Section RandomAllocation.

(** [randint k a b] is the value returned by the [k]-th call of
    [random.randint(a, b)] in a run.  Any run of the program is described
    by some such oracle. *)
Variable randint : nat → Z → Z → Z.

Fixpoint random_loop (ds : list Z) (k : nat) (allocation : list Z)
    (remaining : Z) : list Z * Z :=
  match ds with
  | [] => (allocation, remaining)
  | _ :: ds' =>
      let alloc := randint k 0 (if 0 <? remaining then remaining else 0) in
      let allocation := allocation ++ [alloc] in
      let remaining := remaining - alloc in
      if remaining <=? 0 then (allocation, remaining)
      else random_loop ds' (S k) allocation remaining
  end.

Definition random_allocation (total_bandwidth : Z) (demands : list Z)
  : list Z * Z :=
  let '(allocation, remaining) :=
    random_loop demands 0%nat [] total_bandwidth in
  (allocation, total_bandwidth - remaining).

End RandomAllocation.

(** The documented contract of [random.randint]: [a <= N <= b]. *)
Definition randint_contract (randint : nat → Z → Z → Z) : Prop :=
  ∀ k a b, a ≤ b → a ≤ randint k a b ≤ b.

(** *** dynamic_allocation *)

(** [dp[i][w]] *)
Definition get2 (dp : list (list Z)) (i w : Z) : outcome Z :=
  row ← getitem dp i; getitem row w.

(** [dp[i][w] = v].  The rows are distinct list objects (built by a
    comprehension), so writing into row [i] leaves the other rows alone. *)
Definition set2 (dp : list (list Z)) (i w v : Z) : outcome (list (list Z)) :=
  row ← getitem dp i; row ← setitem row w v; setitem dp i row.

(** A [for x in xs] loop without [break] over a state of type [St]. *)
Fixpoint for_each {St} (xs : list Z) (body : Z → St → outcome St) (s : St)
  : outcome St :=
  match xs with
  | [] => mret s
  | x :: xs' => s ← body x s; for_each xs' body s
  end.

(** Body of the inner table-filling loop.  [demands] is never written, so
    its three reads of [demands[i-1]] are one read here. *)
Definition fill_cell (demands : list Z) (i w : Z) (dp : list (list Z))
  : outcome (list (list Z)) :=
  d ← getitem demands (i - 1);
  if d <=? w then
    a ← get2 dp (i - 1) w;
    b ← get2 dp (i - 1) (w - d);
    set2 dp i w (Z.max a (b + d))
  else
    a ← get2 dp (i - 1) w;
    set2 dp i w a.

Definition fill_table (total_bandwidth : Z) (demands : list Z)
    (dp : list (list Z)) : outcome (list (list Z)) :=
  for_each (range 1 (len demands + 1))
    (λ i, for_each (range 1 (total_bandwidth + 1))
            (λ w, fill_cell demands i w)) dp.

(** The backward walk [for i in range(n, 0, -1)] with its [break] and
    [continue]; the state is [(result, w, allocation)]. *)
Fixpoint reconstruct (demands : list Z) (dp : list (list Z)) (idxs : list Z)
    (result w : Z) (allocation : list Z) : outcome (list Z) :=
  match idxs with
  | [] => mret allocation
  | i :: idxs' =>
      if result <=? 0 then mret allocation
      else
        prev ← get2 dp (i - 1) w;
        if result =? prev then reconstruct demands dp idxs' result w allocation
        else
          d ← getitem demands (i - 1);
          reconstruct demands dp idxs' (result - d) (w - d) (allocation ++ [d])
  end.

Definition dynamic_allocation (total_bandwidth : Z) (demands : list Z)
  : outcome (list Z * Z) :=
  let n := len demands in
  let dp := (λ _, repeat 0 (total_bandwidth + 1)) <$> range 0 (n + 1) in
  dp ← fill_table total_bandwidth demands dp;
  result ← get2 dp n total_bandwidth;
  allocation ← reconstruct demands dp (range_down n 0) result total_bandwidth [];
  mret (allocation, sum allocation).

(** *** backtracking_allocation *)

(** The nested function [backtrack(i, current, total)].  The [nonlocal]
    pair [(best_sum, best_alloc)] is threaded through the calls as explicit
    state.  The index [i] is carried as the suffix [demands[i:]], so that
    [i == len(demands)] is the empty suffix and [demands[i]] its head.

    Each recursive call takes one more interpreter frame, and the source
    neither raises the recursion limit ([sys.getrecursionlimit()], 1000
    unless changed) nor catches the error.  [depth] is the number of calls
    of [backtrack] that can still be nested inside the running one; a call
    beyond it raises [RecursionError], which ends the whole search. *)
Fixpoint backtrack (depth : nat) (total_bandwidth : Z) (rest : list Z)
    (current : list Z) (total : Z) (best : Z * list Z)
  : outcome (Z * list Z) :=
  if total_bandwidth <? total then mret best
  else
    let best := if best.1 <? total then (total, current) else best in
    match rest with
    | [] => mret best
    | d :: rest' =>
        match depth with
        | O => Raised RecursionError
        | S depth =>
            (* include *)
            best ← backtrack depth total_bandwidth rest' (current ++ [d])
                     (total + d) best;
            (* exclude *)
            backtrack depth total_bandwidth rest' current total best
        end
    end.

(** [depth] is the number of calls that can be nested inside the root call
    [backtrack(0, [], 0)]. *)
Definition backtracking_allocation (depth : nat) (total_bandwidth : Z)
    (demands : list Z) : outcome (list Z * Z) :=
  '(best_sum, best_alloc) ← backtrack depth total_bandwidth demands [] 0 (0, []);
  mret (best_alloc, best_sum).

(** *** auto_select *)

(** [max(results, key=results.get)] over a dict in insertion order: the
    candidate is replaced only by a strictly larger value.  The keys of a
    dict are unique, so [results.get(k)] is the value stored with [k]. *)
Definition max_by_value (first : string * Z) (others : list (string * Z))
  : string * Z :=
  foldl (λ best kv, if best.2 <? kv.2 then kv else best) first others.

(** [depth] is the recursion depth available to the root call of
    [backtrack] made from here. *)
Definition auto_select (randint : nat → Z → Z → Z) (depth : nat)
    (total_bandwidth : Z) (demands : list Z)
  : outcome (string * Z * list (string * Z)) :=
  let greedy := (greedy_allocation total_bandwidth demands).2 in
  dynamic ← dynamic_allocation total_bandwidth demands;
  backtracking ← backtracking_allocation depth total_bandwidth demands;
  let random := (random_allocation randint total_bandwidth demands).2 in
  let first := ("Greedy", greedy)%string in
  let others :=
    [("Dynamic Programming", dynamic.2); ("Backtracking", backtracking.2);
     ("Random", random)]%string in
  let results := first :: others in
  let '(best_algo, best_total) := max_by_value first others in
  mret (best_algo, best_total, results).

(** *** Strategy dispatch of the caller *)

Inductive strategy : Type := Greedy | DynamicProgramming | Backtracking | Random.

(** The [if algo_choice == ...] chain that runs one allocator. *)
Definition run_strategy (randint : nat → Z → Z → Z) (depth : nat)
    (algo_choice : strategy) (total_bandwidth : Z) (demands : list Z)
  : outcome (list Z * Z) :=
  match algo_choice with
  | Greedy => mret (greedy_allocation total_bandwidth demands)
  | DynamicProgramming => dynamic_allocation total_bandwidth demands
  | Backtracking => backtracking_allocation depth total_bandwidth demands
  | Random => mret (random_allocation randint total_bandwidth demands)
  end.

(** ** Definitions used to state the properties *)

(** The inputs the engine is specified for. *)
Definition valid_input (total_bandwidth : Z) (demands : list Z) : Prop :=
  0 ≤ total_bandwidth ∧ Forall (λ d, 0 < d) demands.

Definition invalid_input (total_bandwidth : Z) (demands : list Z) : Prop :=
  total_bandwidth < 0 ∨ Exists (λ d, d ≤ 0) demands.

Definition signals_error {A} (o : outcome A) : Prop := ∃ e, o = Raised e.

(** What the search computes when the stack is deep enough: the state
    [(best_sum, best_alloc)] left by a call of [backtrack] none of whose
    nested calls overflows. *)
Fixpoint backtrack_value (total_bandwidth : Z) (rest : list Z)
    (current : list Z) (total : Z) (best : Z * list Z) : Z * list Z :=
  if total_bandwidth <? total then best
  else
    let best := if best.1 <? total then (total, current) else best in
    match rest with
    | [] => best
    | d :: rest' =>
        let best :=
          backtrack_value total_bandwidth rest' (current ++ [d]) (total + d)
            best in
        backtrack_value total_bandwidth rest' current total best
    end.

Definition backtracking_value (total_bandwidth : Z) (demands : list Z)
  : list Z * Z :=
  let '(best_sum, best_alloc) :=
    backtrack_value total_bandwidth demands [] 0 (0, []) in
  (best_alloc, best_sum).

(** The table entry [dp[i][w]] as the specification words it: the base
    case [dp[0][w] = 0] and the include/exclude recurrence on demand [i]
    (stored at [demands[i-1]]). *)
Fixpoint dp_spec (demands : list Z) (i : nat) (w : Z) : Z :=
  match i with
  | O => 0
  | S j =>
      match demands !! j with
      | Some d =>
          if d <=? w
          then Z.max (dp_spec demands j w) (dp_spec demands j (w - d) + d)
          else dp_spec demands j w
      | None => 0
      end
  end.

(** Entry [(i, w)] of the table, by position. *)
Definition cell (dp : list (list Z)) (i w : nat) : option Z :=
  row ← dp !! i; row !! w.

(** The table has [n + 1] rows of [C + 1] columns. *)
Definition shape (C : Z) (D : list Z) (dp : list (list Z)) : Prop :=
  length dp = S (length D)
  ∧ Forall (λ row, length row = S (Z.to_nat C)) dp.

(** Rows below [i], row [i] up to column [k], and column 0 hold the values
    of the recurrence. *)
Definition filled (C : Z) (D : list Z) (i k : Z) (dp : list (list Z)) : Prop :=
  shape C D dp ∧
  ∀ i' w' : nat,
    (i' ≤ length D)%nat → Z.of_nat w' ≤ C →
    Z.of_nat i' < i ∨ (Z.of_nat i' = i ∧ Z.of_nat w' ≤ k) ∨ w' = 0%nat →
    cell dp i' w' = Some (dp_spec D i' (Z.of_nat w')).

(** ** Concrete runs *)

Example greedy_scenario_1 :
  greedy_allocation 100 [50; 40; 30; 60; 20] = ([60; 40], 100).
Proof. reflexivity. Qed.

Example dynamic_scenario_1 :
  dynamic_allocation 100 [50; 40; 30; 60; 20] = Returned ([60; 40], 100).
Proof. vm_compute. reflexivity. Qed.

Example backtracking_scenario_1 :
  backtracking_allocation 5 100 [50; 40; 30; 60; 20]
  = Returned ([50; 30; 20], 100).
Proof. vm_compute. reflexivity. Qed.

Example scenario_capacity_0 :
  greedy_allocation 0 [5; 10] = ([0], 0)
  ∧ dynamic_allocation 0 [5; 10] = Returned ([], 0)
  ∧ backtracking_allocation 2 0 [5; 10] = Returned ([], 0).
Proof. repeat split; reflexivity. Qed.

(** Runs on input outside the specified domain. *)

Example dynamic_negative_capacity :
  dynamic_allocation (-1) [3] = Raised IndexError.
Proof. reflexivity. Qed.

Example greedy_zero_demand : greedy_allocation 10 [0] = ([0], 0).
Proof. reflexivity. Qed.

Example dynamic_zero_demand : dynamic_allocation 1 [0] = Returned ([], 0).
Proof. reflexivity. Qed.

Example dynamic_negative_demand :
  dynamic_allocation 1 [-3] = Raised IndexError.
Proof. reflexivity. Qed.

(** ** Facts about the Python primitives *)

Section PyFacts.

Lemma bind_Returned {A B} (a : A) (k : A → outcome B) :
  Returned a ≫= k = k a.
Proof. reflexivity. Qed.

Lemma foldl_add_shift (l : list Z) (a : Z) :
  foldl Z.add a l = a + sum l.
Proof.
  unfold sum. revert a.
  induction l as [|x l IH]; intros a; simpl; [lia|].
  rewrite (IH (a + x)), (IH (0 + x)). lia.
Qed.

Lemma sum_nil : sum [] = 0.
Proof. reflexivity. Qed.

Lemma sum_cons (x : Z) (l : list Z) : sum (x :: l) = x + sum l.
Proof. unfold sum at 1. simpl. rewrite foldl_add_shift. lia. Qed.

Lemma sum_app (l1 l2 : list Z) : sum (l1 ++ l2) = sum l1 + sum l2.
Proof.
  induction l1 as [|x l1 IH]; simpl; [rewrite sum_nil; lia|].
  rewrite !sum_cons, IH. lia.
Qed.

Lemma sum_snoc (l : list Z) (x : Z) : sum (l ++ [x]) = sum l + x.
Proof. rewrite sum_app, sum_cons, sum_nil. lia. Qed.

Lemma sum_perm (l1 l2 : list Z) : l1 ≡ₚ l2 → sum l1 = sum l2.
Proof.
  induction 1; rewrite ?sum_cons; lia.
Qed.

Lemma sum_reverse (l : list Z) : sum (reverse l) = sum l.
Proof. apply sum_perm, reverse_Permutation. Qed.

Lemma sum_nonneg (l : list Z) : Forall (λ d, 0 < d) l → 0 ≤ sum l.
Proof.
  induction 1 as [|x l Hx _ IH]; [rewrite sum_nil; lia|].
  rewrite sum_cons. lia.
Qed.

Lemma positive_nonneg (l : list Z) :
  Forall (λ d, 0 < d) l → Forall (λ a, 0 ≤ a) l.
Proof. intros Hl. eapply Forall_impl; [exact Hl|]. simpl. intros; lia. Qed.

Lemma sublist_positive (l k : list Z) :
  l `sublist_of` k → Forall (λ d, 0 < d) k → Forall (λ d, 0 < d) l.
Proof.
  intros Hsub Hk. apply Forall_forall. intros x Hx.
  rewrite Forall_forall in Hk. by apply Hk, (sublist_subseteq _ _ Hsub).
Qed.

Lemma insert_desc_perm (x : Z) (l : list Z) : insert_desc x l ≡ₚ x :: l.
Proof.
  induction l as [|y l IH]; simpl; [done|].
  destruct (x <? y); [|done].
  rewrite IH. apply Permutation_swap.
Qed.

(** [sorted] returns a rearrangement of its argument ... *)
Lemma sorted_reverse_perm (l : list Z) : sorted_reverse l ≡ₚ l.
Proof.
  induction l as [|x l IH]; simpl; [done|].
  rewrite insert_desc_perm. by f_equiv.
Qed.

Lemma insert_desc_sorted (x : Z) (l : list Z) :
  StronglySorted Z.ge l → StronglySorted Z.ge (insert_desc x l).
Proof.
  induction 1 as [|y l Hl IH Hy]; simpl.
  - repeat constructor.
  - destruct (Z.ltb_spec x y).
    + constructor; [done|].
      rewrite insert_desc_perm. constructor; [lia|done].
    + constructor; [by constructor|].
      constructor; [lia|].
      eapply Forall_impl; [exact Hy|]. simpl. intros; lia.
Qed.

(** ... in descending order. *)
Lemma sorted_reverse_sorted (l : list Z) :
  StronglySorted Z.ge (sorted_reverse l).
Proof.
  induction l as [|x l IH]; simpl; [constructor|].
  by apply insert_desc_sorted.
Qed.

Lemma sorted_reverse_positive (l : list Z) :
  Forall (λ d, 0 < d) l → Forall (λ d, 0 < d) (sorted_reverse l).
Proof. intros H. by rewrite sorted_reverse_perm. Qed.

End PyFacts.

(** ** greedy_allocation *)

Section GreedyFacts.

(** What is left after the loop: the capacity is used up to the point
    where either it or the demands run out. *)
Lemma greedy_loop_remaining (ds allocation : list Z) (remaining : Z) :
  0 ≤ remaining → Forall (λ d, 0 < d) ds →
  (greedy_loop ds allocation remaining).2
  = remaining - Z.min remaining (sum ds).
Proof.
  intros Hr Hds. revert allocation remaining Hr.
  induction Hds as [|d ds Hd Hds IH]; intros allocation remaining Hr; simpl.
  - rewrite sum_nil. lia.
  - rewrite sum_cons. pose proof (sum_nonneg ds Hds).
    destruct (Z.leb_spec (remaining - Z.min d remaining) 0); simpl; [lia|].
    rewrite IH by lia. lia.
Qed.

(** The amounts appended by the loop add up to the capacity it consumed. *)
Lemma greedy_loop_sum (ds allocation : list Z) (remaining : Z) :
  sum (greedy_loop ds allocation remaining).1
  = sum allocation + (remaining - (greedy_loop ds allocation remaining).2).
Proof.
  revert allocation remaining.
  induction ds as [|d ds IH]; intros allocation remaining; simpl; [lia|].
  destruct (Z.leb_spec (remaining - Z.min d remaining) 0); simpl.
  - rewrite sum_snoc. lia.
  - rewrite IH, sum_snoc. lia.
Qed.

Lemma greedy_allocation_total (C : Z) (D : list Z) :
  0 ≤ C → Forall (λ d, 0 < d) D →
  (greedy_allocation C D).2 = Z.min C (sum D).
Proof.
  intros HC HD. unfold greedy_allocation.
  pose proof (greedy_loop_remaining (sorted_reverse D) [] C HC
                (sorted_reverse_positive D HD)) as Hrem.
  destruct (greedy_loop (sorted_reverse D) [] C) as [allocation remaining].
  simpl in *. rewrite Hrem, (sum_perm _ _ (sorted_reverse_perm D)). lia.
Qed.

Lemma greedy_allocation_sum (C : Z) (D : list Z) :
  sum (greedy_allocation C D).1 = (greedy_allocation C D).2.
Proof.
  unfold greedy_allocation.
  pose proof (greedy_loop_sum (sorted_reverse D) [] C) as Hsum.
  destruct (greedy_loop (sorted_reverse D) [] C) as [allocation remaining].
  simpl in *. rewrite Hsum, sum_nil. lia.
Qed.

End GreedyFacts.

(** ** random_allocation *)

Section RandomFacts.

Variable randint : nat → Z → Z → Z.
Hypothesis randint_ok : randint_contract randint.

(** Every draw is taken from [0, remaining], so the loop never overdraws. *)
Lemma random_loop_remaining (ds : list Z) (k : nat) (allocation : list Z)
    (remaining : Z) :
  0 ≤ remaining →
  0 ≤ (random_loop randint ds k allocation remaining).2 ≤ remaining.
Proof.
  revert k allocation remaining.
  induction ds as [|d ds IH]; intros k allocation remaining Hr; simpl; [lia|].
  set (hi := if 0 <? remaining then remaining else 0).
  assert (hi = remaining) as Hhi
    by (unfold hi; destruct (Z.ltb_spec 0 remaining); lia).
  pose proof (randint_ok k 0 hi ltac:(lia)) as Hdraw.
  destruct (Z.leb_spec (remaining - randint k 0 hi) 0); simpl; [lia|].
  specialize (IH (S k) (allocation ++ [randint k 0 hi])
                (remaining - randint k 0 hi) ltac:(lia)).
  lia.
Qed.

Lemma random_allocation_bound (C : Z) (D : list Z) :
  0 ≤ C → 0 ≤ (random_allocation randint C D).2 ≤ C.
Proof.
  intros HC. unfold random_allocation.
  pose proof (random_loop_remaining D 0%nat [] C HC) as Hrem.
  destruct (random_loop randint D 0%nat [] C) as [allocation remaining].
  simpl in *. lia.
Qed.

End RandomFacts.

(** ** backtracking_allocation *)

Section BacktrackFacts.

Variable C : Z.

Lemma backtrack_value_unfold (rest current : list Z) (total : Z) (best : Z * list Z) :
  backtrack_value C rest current total best =
  if C <? total then best
  else
    let best := if best.1 <? total then (total, current) else best in
    match rest with
    | [] => best
    | d :: rest' =>
        backtrack_value C rest' current total
          (backtrack_value C rest' (current ++ [d]) (total + d) best)
    end.
Proof. by destruct rest. Qed.

(** The recorded best sum never decreases. *)
Lemma backtrack_value_mono (rest current : list Z) (total : Z) (best : Z * list Z) :
  best.1 ≤ (backtrack_value C rest current total best).1.
Proof.
  revert current total best.
  induction rest as [|d rest IH]; intros current total best;
    rewrite backtrack_value_unfold; destruct (C <? total); try lia; simpl.
  - destruct (Z.ltb_spec best.1 total); simpl; lia.
  - etrans; [|apply IH]. etrans; [|apply IH].
    destruct (Z.ltb_spec best.1 total); simpl; lia.
Qed.

(** Pruning: a total above the capacity is never recorded. *)
Lemma backtrack_value_within (rest current : list Z) (total : Z) (best : Z * list Z) :
  best.1 ≤ C → (backtrack_value C rest current total best).1 ≤ C.
Proof.
  revert current total best.
  induction rest as [|d rest IH]; intros current total best Hbest;
    rewrite backtrack_value_unfold; destruct (Z.ltb_spec C total); try lia; simpl.
  - destruct (Z.ltb_spec best.1 total); simpl; lia.
  - apply IH, IH. destruct (Z.ltb_spec best.1 total); simpl; lia.
Qed.

(** The recorded sum is the sum of the recorded subset. *)
Lemma backtrack_value_sum (rest current : list Z) (total : Z) (best : Z * list Z) :
  total = sum current → best.1 = sum best.2 →
  (backtrack_value C rest current total best).1
  = sum (backtrack_value C rest current total best).2.
Proof.
  revert current total best.
  induction rest as [|d rest IH]; intros current total best Hcur Hbest;
    rewrite backtrack_value_unfold; destruct (C <? total); try done; simpl.
  - by destruct (best.1 <? total).
  - apply IH; [done|]. apply IH.
    + rewrite sum_snoc. lia.
    + by destruct (best.1 <? total).
Qed.

(** The recorded subset keeps whole demands in input order: it is a
    subsequence of the demands decided so far followed by the rest. *)
Lemma backtrack_value_sublist (rest pre current : list Z) (total : Z)
    (best : Z * list Z) :
  current `sublist_of` pre → best.2 `sublist_of` pre ++ rest →
  (backtrack_value C rest current total best).2 `sublist_of` pre ++ rest.
Proof.
  revert pre current total best.
  induction rest as [|d rest IH]; intros pre current total best Hcur Hbest;
    rewrite backtrack_value_unfold; destruct (C <? total); try done; simpl.
  - destruct (best.1 <? total); [|done]. simpl. by apply sublist_inserts_r.
  - assert (pre ++ d :: rest = (pre ++ [d]) ++ rest) as Heq
      by (by rewrite <- app_assoc).
    rewrite Heq in *. apply IH.
    + by apply sublist_inserts_r.
    + apply IH; [by apply sublist_app|].
      destruct (best.1 <? total); [|done]. simpl.
      rewrite <- app_assoc. by apply sublist_inserts_r.
Qed.

(** Exhaustiveness: every selection of the undecided demands that fits
    the capacity is reached (positive demands make the pruning safe). *)
Lemma backtrack_value_complete (rest current : list Z) (total : Z)
    (best : Z * list Z) (S : list Z) :
  Forall (λ d, 0 < d) rest → S `sublist_of` rest → total + sum S ≤ C →
  total + sum S ≤ (backtrack_value C rest current total best).1.
Proof.
  intros Hpos. revert current total best S.
  induction Hpos as [|d rest Hd Hpos IH]; intros current total best S HS Hfit;
    rewrite backtrack_value_unfold.
  - apply sublist_nil_r in HS as ->. rewrite sum_nil in *.
    destruct (Z.ltb_spec C total); [lia|]. simpl.
    destruct (Z.ltb_spec best.1 total); simpl; lia.
  - assert (0 ≤ sum S) as HSpos.
    { apply sum_nonneg. eapply sublist_positive; [exact HS|]. by constructor. }
    destruct (Z.ltb_spec C total); [lia|]. simpl.
    apply sublist_cons_r in HS as [HS|(S' & -> & HS)].
    + by apply IH.
    + rewrite sum_cons in *.
      etrans; [|apply backtrack_value_mono].
      specialize (IH (current ++ [d]) (total + d)
        (if best.1 <? total then (total, current) else best) S' HS).
      lia.
Qed.

End BacktrackFacts.

Section BacktrackingValueFacts.

Variables (C : Z) (D : list Z).

Lemma backtracking_value_sum :
  sum (backtracking_value C D).1 = (backtracking_value C D).2.
Proof.
  unfold backtracking_value.
  pose proof (backtrack_value_sum C D [] 0 (0, []) eq_refl eq_refl) as H.
  by destruct (backtrack_value C D [] 0 (0, [])).
Qed.

Lemma backtracking_value_sublist :
  (backtracking_value C D).1 `sublist_of` D.
Proof.
  unfold backtracking_value.
  pose proof (backtrack_value_sublist C D [] [] 0 (0, [])) as H.
  destruct (backtrack_value C D [] 0 (0, [])). simpl in *.
  apply H; [done|apply sublist_nil_l].
Qed.

Lemma backtracking_value_within :
  0 ≤ C → (backtracking_value C D).2 ≤ C.
Proof.
  intros HC. unfold backtracking_value.
  pose proof (backtrack_value_within C D [] 0 (0, []) HC) as H.
  by destruct (backtrack_value C D [] 0 (0, [])).
Qed.

Lemma backtracking_value_optimal (S : list Z) :
  Forall (λ d, 0 < d) D → S `sublist_of` D → sum S ≤ C →
  sum S ≤ (backtracking_value C D).2.
Proof.
  intros HD HS Hfit. unfold backtracking_value.
  pose proof (backtrack_value_complete C D [] 0 (0, []) S HD HS) as H.
  destruct (backtrack_value C D [] 0 (0, [])). simpl in *. lia.
Qed.

End BacktrackingValueFacts.

(** ** dynamic_allocation *)

(** *** Indexing inside the bounds *)

Section Indexing.

Context {A : Type}.
Implicit Types (l : list A) (i : Z).

Lemma position_in_range l i :
  0 ≤ i < len l → position l i = Returned (Z.to_nat i).
Proof.
  intros Hi. unfold position.
  destruct (Z.ltb_spec i 0); [lia|].
  destruct (Z.leb_spec 0 i); [|lia].
  destruct (Z.ltb_spec i (len l)); [done|lia].
Qed.

Lemma getitem_in_range l i :
  0 ≤ i < len l →
  ∃ x, l !! Z.to_nat i = Some x ∧ getitem l i = Returned x.
Proof.
  intros Hi. unfold getitem. rewrite position_in_range by done. simpl.
  destruct (lookup_lt_is_Some_2 l (Z.to_nat i)) as [x Hx];
    [unfold len in Hi; lia|].
  exists x. by rewrite Hx.
Qed.

Lemma getitem_lookup l i x :
  0 ≤ i → l !! Z.to_nat i = Some x → getitem l i = Returned x.
Proof.
  intros Hi Hx. pose proof (lookup_lt_Some _ _ _ Hx) as Hlt.
  unfold getitem. rewrite position_in_range by (unfold len; lia).
  simpl. by rewrite Hx.
Qed.

Lemma setitem_in_range l i (v : A) :
  0 ≤ i < len l → setitem l i v = Returned (<[Z.to_nat i := v]> l).
Proof.
  intros Hi. unfold setitem. by rewrite position_in_range.
Qed.

(** An empty list has no valid index at all. *)
Lemma getitem_empty i : getitem (@nil A) i = Raised IndexError.
Proof.
  unfold getitem, position, len. cbn [length].
  change (Z.of_nat 0) with 0.
  destruct (Z.ltb_spec i 0) as [Hneg|Hpos].
  - destruct (Z.leb_spec 0 (i + 0)); [lia|done].
  - cbv beta zeta iota.
    destruct (Z.leb_spec 0 i), (Z.ltb_spec i 0); try done; lia.
Qed.

End Indexing.

(** *** Loops as invariants *)

Lemma for_each_invariant {St} (I : Z → St → Prop)
    (body : Z → St → outcome St) (a : Z) (m : nat) (s : St) :
  I a s →
  (∀ x s, a ≤ x < a + Z.of_nat m → I x s →
          ∃ s', body x s = Returned s' ∧ I (x + 1) s') →
  ∃ s', for_each (seqZ a (Z.of_nat m)) body s = Returned s'
        ∧ I (a + Z.of_nat m) s'.
Proof.
  revert a s. induction m as [|m IH]; intros a s Hinit Hstep.
  - exists s. simpl. by rewrite Z.add_0_r.
  - rewrite seqZ_cons by lia. simpl.
    destruct (Hstep a s ltac:(lia) Hinit) as (s1 & -> & Hs1). simpl.
    replace (Z.pred (Z.of_nat (S m))) with (Z.of_nat m) by lia.
    destruct (IH (Z.succ a) s1) as (s' & Hrun & Hs').
    + by replace (Z.succ a) with (a + 1) by lia.
    + intros x s2 Hx. apply Hstep. lia.
    + exists s'. split; [done|].
      by replace (a + Z.of_nat (S m)) with (Z.succ a + Z.of_nat m) by lia.
Qed.

(** *** The recurrence the table implements *)

Section DpSpec.

Variable D : list Z.

Lemma dp_spec_nonneg (i : nat) (w : Z) : 0 ≤ dp_spec D i w.
Proof.
  revert w. induction i as [|j IH]; intros w; simpl; [lia|].
  destruct (D !! j) as [d|]; [|lia].
  destruct (d <=? w); [|done]. specialize (IH w). lia.
Qed.

Lemma dp_spec_le (i : nat) (w : Z) : 0 ≤ w → dp_spec D i w ≤ w.
Proof.
  revert w. induction i as [|j IH]; intros w Hw; simpl; [lia|].
  destruct (D !! j) as [d|]; [|lia].
  destruct (Z.leb_spec d w); [|by apply IH].
  pose proof (IH w Hw). pose proof (IH (w - d) ltac:(lia)). lia.
Qed.

Lemma dp_spec_zero (i : nat) : dp_spec D i 0 = 0.
Proof.
  pose proof (dp_spec_nonneg i 0). pose proof (dp_spec_le i 0). lia.
Qed.

(** No selection among the first [i] demands that fits [w] beats the
    recurrence. *)
Lemma dp_spec_upper (i : nat) (w : Z) (sel : list Z) :
  Forall (λ d, 0 < d) D → (i ≤ length D)%nat →
  sel `sublist_of` take i D → sum sel ≤ w → sum sel ≤ dp_spec D i w.
Proof.
  intros HD. revert w sel.
  induction i as [|j IH]; intros w sel Hi Hsel Hfit.
  - rewrite take_0 in Hsel. apply sublist_nil_r in Hsel as ->.
    rewrite sum_nil. simpl. lia.
  - simpl. destruct (lookup_lt_is_Some_2 D j ltac:(lia)) as [d Hd].
    rewrite Hd. rewrite (take_S_r _ _ _ Hd) in Hsel.
    apply sublist_app_r in Hsel as (sel1 & sel2 & -> & Hsel1 & Hsel2).
    rewrite sum_app in *.
    assert (0 ≤ sum sel1) as Hpos.
    { apply sum_nonneg. eapply sublist_positive; [exact Hsel1|].
      eapply sublist_positive; [apply sublist_take|done]. }
    apply sublist_cons_r in Hsel2 as [Hnil|(sel' & -> & Hnil)];
      apply sublist_nil_r in Hnil as ->.
    + rewrite sum_nil in *. specialize (IH w sel1 ltac:(lia) Hsel1).
      destruct (d <=? w); lia.
    + rewrite sum_cons, sum_nil in *.
      destruct (Z.leb_spec d w); [|lia].
      specialize (IH (w - d) sel1 ltac:(lia) Hsel1). lia.
Qed.

End DpSpec.

(** *** The table as a list of rows *)

Section TableAccess.

Lemma getitem_nonneg {A} (l : list A) (i : Z) :
  0 ≤ i →
  getitem l i = match l !! Z.to_nat i with
                | Some x => Returned x
                | None => Raised IndexError
                end.
Proof.
  intros Hi. destruct (l !! Z.to_nat i) as [x|] eqn:Hx.
  - by apply getitem_lookup.
  - apply lookup_ge_None in Hx. unfold getitem, position, len.
    destruct (Z.ltb_spec i 0); [lia|].
    destruct (Z.leb_spec 0 i); [|lia].
    destruct (Z.ltb_spec i (Z.of_nat (length l))); [lia|done].
Qed.

Lemma get2_nonneg (dp : list (list Z)) (i w : Z) :
  0 ≤ i → 0 ≤ w →
  get2 dp i w = match cell dp (Z.to_nat i) (Z.to_nat w) with
                | Some v => Returned v
                | None => Raised IndexError
                end.
Proof.
  intros Hi Hw. unfold get2, cell. rewrite getitem_nonneg by done.
  destruct (dp !! Z.to_nat i) as [row|]; simpl; [|done].
  by rewrite getitem_nonneg.
Qed.

Lemma set2_in_range (dp : list (list Z)) (i w v : Z) (row : list Z) :
  0 ≤ i → 0 ≤ w →
  dp !! Z.to_nat i = Some row → (Z.to_nat w < length row)%nat →
  set2 dp i w v
  = Returned (<[Z.to_nat i := <[Z.to_nat w := v]> row]> dp).
Proof.
  intros Hi Hw Hrow Hlen. unfold set2.
  rewrite (getitem_lookup _ _ _ Hi Hrow). simpl.
  rewrite setitem_in_range by (unfold len; lia). simpl.
  apply lookup_lt_Some in Hrow.
  by rewrite setitem_in_range by (unfold len; lia).
Qed.

Lemma cell_update (dp : list (list Z)) (i w : nat) (v : Z) (row : list Z)
    (i' w' : nat) :
  dp !! i = Some row → (w < length row)%nat →
  cell (<[i := <[w := v]> row]> dp) i' w'
  = if decide (i' = i ∧ w' = w) then Some v else cell dp i' w'.
Proof.
  intros Hrow Hlen. unfold cell.
  pose proof (lookup_lt_Some _ _ _ Hrow) as Hi.
  destruct (decide (i' = i)) as [->|Hne].
  - rewrite list_lookup_insert_eq by done. simpl. rewrite Hrow. simpl.
    destruct (decide (w' = w)) as [->|Hnw].
    + rewrite list_lookup_insert_eq by done. by rewrite decide_True.
    + rewrite list_lookup_insert_ne by done.
      rewrite decide_False; [done|]. by intros [_ ?].
  - rewrite list_lookup_insert_ne by done.
    rewrite decide_False; [done|]. by intros [? _].
Qed.

End TableAccess.

(** *** Filling the table *)

Section TableFill.

Variables (C : Z) (D : list Z).
Hypothesis HC : 0 ≤ C.
Hypothesis HD : Forall (λ d, 0 ≤ d) D.

Lemma filled_get2 (i k : Z) (dp : list (list Z)) (i' w' : Z) :
  filled C D i k dp → 0 ≤ i' ≤ len D → 0 ≤ w' ≤ C →
  i' < i ∨ (i' = i ∧ w' ≤ k) →
  get2 dp i' w' = Returned (dp_spec D (Z.to_nat i') w').
Proof.
  intros [_ Hcells] Hi' Hw' Hdone. unfold len in Hi'.
  rewrite get2_nonneg by lia.
  rewrite (Hcells (Z.to_nat i') (Z.to_nat w')) by lia.
  by rewrite Z2Nat.id by lia.
Qed.

Lemma initial_table_filled :
  filled C D 0 C ((λ _, Py.repeat 0 (C + 1)) <$> range 0 (len D + 1)).
Proof.
  unfold range, Py.repeat, len.
  replace (Z.of_nat (length D) + 1 - 0) with (Z.of_nat (S (length D))) by lia.
  replace (Z.to_nat (C + 1)) with (S (Z.to_nat C)) by lia.
  split; [split|].
  - by rewrite length_fmap, length_seqZ, Nat2Z.id.
  - apply Forall_fmap, Forall_forall. intros x _. simpl.
    by rewrite length_replicate.
  - intros i' w' Hi' Hw' Hdone. unfold cell.
    rewrite list_lookup_fmap.
    rewrite (lookup_seqZ_lt 0 _ i') by lia. simpl.
    change (0 :: replicate (Z.to_nat C) 0)
      with (replicate (S (Z.to_nat C)) 0).
    rewrite lookup_replicate_2 by lia.
    destruct Hdone as [?|[[? _]| ->]]; try lia.
    + by replace i' with 0%nat by lia.
    + by rewrite dp_spec_zero.
Qed.

Lemma fill_cell_step (i w : Z) (dp : list (list Z)) :
  1 ≤ i ≤ len D → 1 ≤ w ≤ C → filled C D i (w - 1) dp →
  ∃ dp', fill_cell D i w dp = Returned dp' ∧ filled C D i w dp'.
Proof.
  intros Hi Hw Hfilled.
  destruct (getitem_in_range D (i - 1) ltac:(lia)) as (d & Hd & Hget).
  pose proof (Forall_lookup_1 _ _ _ _ HD Hd) as Hdpos. simpl in Hdpos.
  assert (dp_spec D (Z.to_nat i) w =
          if d <=? w
          then Z.max (dp_spec D (Z.to_nat (i - 1)) w)
                 (dp_spec D (Z.to_nat (i - 1)) (w - d) + d)
          else dp_spec D (Z.to_nat (i - 1)) w) as Hspec.
  { replace (Z.to_nat i) with (S (Z.to_nat (i - 1))) by lia.
    simpl. by rewrite Hd. }
  (* the value written is the one the recurrence prescribes *)
  assert (fill_cell D i w dp = set2 dp i w (dp_spec D (Z.to_nat i) w)) as ->.
  { unfold fill_cell. rewrite Hget, Hspec. simpl.
    destruct (Z.leb_spec d w).
    - rewrite (filled_get2 i (w - 1) dp) by auto with lia. simpl.
      by rewrite (filled_get2 i (w - 1) dp) by auto with lia.
    - by rewrite (filled_get2 i (w - 1) dp) by auto with lia. }
  (* writing it extends the filled part by one cell *)
  destruct Hfilled as [[Hlen Hrows] Hcells]. unfold len in Hi.
  destruct (lookup_lt_is_Some_2 dp (Z.to_nat i) ltac:(lia)) as [row Hrow].
  pose proof (Forall_lookup_1 _ _ _ _ Hrows Hrow) as Hrowlen.
  simpl in Hrowlen.
  rewrite (set2_in_range dp i w _ row) by (done || lia).
  eexists. split; [done|]. split; [split|].
  - by rewrite length_insert.
  - apply Forall_insert; [done|]. by rewrite length_insert.
  - intros i' w' Hi' Hw' Hdone.
    rewrite cell_update by (done || lia).
    destruct (decide (i' = Z.to_nat i ∧ w' = Z.to_nat w)) as [[-> ->]|Hne].
    + by rewrite Z2Nat.id by lia.
    + apply Hcells; [done..|].
      assert (Z.of_nat i' ≠ i ∨ Z.of_nat w' ≠ w) by lia. lia.
Qed.

Lemma fill_table_filled :
  ∃ dp,
    fill_table C D ((λ _, Py.repeat 0 (C + 1)) <$> range 0 (len D + 1))
    = Returned dp
    ∧ filled C D (len D) C dp.
Proof.
  unfold fill_table, range at 1, len.
  replace (Z.of_nat (length D) + 1 - 1) with (Z.of_nat (length D)) by lia.
  destruct (for_each_invariant (λ i dp, filled C D (i - 1) C dp)
    (λ i, for_each (range 1 (C + 1)) (λ w, fill_cell D i w))
    1 (length D) ((λ _, Py.repeat 0 (C + 1)) <$> range 0 (len D + 1)))
    as (dp & Hrun & Hdp).
  - apply initial_table_filled.
  - intros i dp Hi Hprev. unfold range.
    replace (C + 1 - 1) with (Z.of_nat (Z.to_nat C)) by lia.
    destruct (for_each_invariant (λ w dp, filled C D i (w - 1) dp)
      (λ w, fill_cell D i w) 1 (Z.to_nat C) dp) as (dp' & Hrun & Hdp').
    + destruct Hprev as [Hshape Hcells]. split; [done|].
      intros i' w' Hi' Hw' Hdone. apply Hcells; [done..|]. lia.
    + intros w dp1 Hw Hdp1.
      destruct (fill_cell_step i w dp1) as (dp2 & ? & ?);
        [unfold len; lia | lia | done |].
      exists dp2. split; [done|]. by replace (w + 1 - 1) with w by lia.
    + exists dp'. split; [done|].
      destruct Hdp' as [Hshape Hcells]. split; [done|].
      intros i' w' Hi' Hw' Hdone. apply Hcells; [done..|].
      lia.
  - exists dp. split; [done|].
    by replace (1 + Z.of_nat (length D) - 1) with (Z.of_nat (length D))
      in Hdp by lia.
Qed.

End TableFill.

(** *** Walking the table backwards *)

Section Reconstruct.

Variables (C : Z) (D : list Z).
Hypothesis HC : 0 ≤ C.
Hypothesis HD : Forall (λ d, 0 ≤ d) D.

Variable dp : list (list Z).
Hypothesis Hfull : filled C D (len D) C dp.

Lemma reconstruct_cons (i : Z) (idxs : list Z) (result w : Z)
    (allocation : list Z) :
  reconstruct D dp (i :: idxs) result w allocation =
  if result <=? 0 then mret allocation
  else
    prev ← get2 dp (i - 1) w;
    if result =? prev then reconstruct D dp idxs result w allocation
    else
      d ← getitem D (i - 1);
      reconstruct D dp idxs (result - d) (w - d) (allocation ++ [d]).
Proof. reflexivity. Qed.

(** Started at [(i, w)] with the table value as target, the walk appends
    whole demands among the first [i], latest first, adding up to the
    target. *)
Lemma reconstruct_sound (i : nat) (w : Z) (allocation : list Z) :
  (i ≤ length D)%nat → 0 ≤ w ≤ C →
  ∃ chosen,
    reconstruct D dp (reverse (seqZ 1 (Z.of_nat i))) (dp_spec D i w) w
      allocation
    = Returned (allocation ++ chosen)
    ∧ sum chosen = dp_spec D i w
    ∧ reverse chosen `sublist_of` take i D.
Proof.
  revert w allocation.
  induction i as [|j IH]; intros w allocation Hi Hw.
  - exists []. rewrite app_nil_r. by repeat split.
  - rewrite seqZ_S, reverse_snoc, reconstruct_cons.
    destruct (lookup_lt_is_Some_2 D j ltac:(lia)) as [d Hd].
    pose proof (Forall_lookup_1 _ _ _ _ HD Hd) as Hdpos. simpl in Hdpos.
    rewrite (take_S_r _ _ _ Hd).
    pose proof (dp_spec_nonneg D (S j) w) as Hnonneg.
    assert (dp_spec D (S j) w =
            if d <=? w
            then Z.max (dp_spec D j w) (dp_spec D j (w - d) + d)
            else dp_spec D j w) as Hspec by (simpl; by rewrite Hd).
    remember (dp_spec D (S j) w) as result eqn:Hresult. clear Hresult.
    destruct (Z.leb_spec result 0) as [Hzero|Hpos].
    { exists []. rewrite app_nil_r, sum_nil.
      repeat split; [lia|apply sublist_nil_l]. }
    replace (1 + Z.of_nat j - 1) with (Z.of_nat j) by lia.
    rewrite (filled_get2 C D HC (len D) C dp) by (done || unfold len; lia).
    rewrite Nat2Z.id. simpl.
    destruct (Z.eqb_spec result (dp_spec D j w)) as [Heq|Hne].
    + rewrite Heq. destruct (IH w allocation) as (chosen & ? & ? & ?);
        [lia|done|].
      exists chosen. repeat split; [done..|]. by apply sublist_inserts_r.
    + rewrite (getitem_lookup D (Z.of_nat j) d)
        by (by rewrite ?Nat2Z.id || lia).
      simpl.
      assert (d ≤ w ∧ result - d = dp_spec D j (w - d)) as [Hfit Hincl].
      { destruct (Z.leb_spec d w); [|done]. lia. }
      rewrite Hincl.
      destruct (IH (w - d) (allocation ++ [d])) as (chosen & Hrun & ? & ?);
        [lia|lia|].
      exists (d :: chosen). rewrite Hrun, <- app_assoc. simpl.
      repeat split.
      * rewrite sum_cons. lia.
      * rewrite reverse_cons. by apply sublist_app.
Qed.

End Reconstruct.

Section DynamicAllocationFacts.

Variables (C : Z) (D : list Z).
Hypothesis HC : 0 ≤ C.

(** For a capacity [C >= 0] and demands none of which is negative,
    [dynamic_allocation] raises nothing; its total is the table entry
    [dp[n][C]] of the recurrence, and its allocation lists whole demands
    (latest first) adding up to that total. *)
Lemma dynamic_allocation_returns_nonneg :
  Forall (λ d, 0 ≤ d) D →
  ∃ allocation,
    dynamic_allocation C D = Returned (allocation, dp_spec D (length D) C)
    ∧ sum allocation = dp_spec D (length D) C
    ∧ reverse allocation `sublist_of` D.
Proof.
  intros HD. unfold dynamic_allocation.
  destruct (fill_table_filled C D HC HD) as (dp & -> & Hfull).
  rewrite bind_Returned.
  rewrite (filled_get2 C D HC (len D) C dp) by (done || unfold len; lia).
  rewrite bind_Returned. unfold range_down.
  replace (len D - 0) with (len D) by lia.
  change (0 + 1) with 1. unfold len. rewrite Nat2Z.id.
  destruct (reconstruct_sound C D HC HD dp Hfull (length D) C [])
    as (chosen & -> & Hsum & Hsub); [done|lia|].
  rewrite bind_Returned. simpl. rewrite firstn_all in Hsub.
  exists chosen. by rewrite Hsum.
Qed.

Hypothesis HD : Forall (λ d, 0 < d) D.

(** In particular on valid input. *)
Lemma dynamic_allocation_returns :
  ∃ allocation,
    dynamic_allocation C D = Returned (allocation, dp_spec D (length D) C)
    ∧ sum allocation = dp_spec D (length D) C
    ∧ reverse allocation `sublist_of` D.
Proof. apply dynamic_allocation_returns_nonneg. by apply positive_nonneg. Qed.

(** The table entry [dp[n][C]] is the optimum of the subset-sum problem. *)
Lemma dp_spec_optimal (sel : list Z) :
  sel `sublist_of` D → sum sel ≤ C → sum sel ≤ dp_spec D (length D) C.
Proof.
  intros Hsel Hfit. apply dp_spec_upper; [done..| |done].
  by rewrite firstn_all.
Qed.

End DynamicAllocationFacts.

(** ** Subsets of the demands *)

Section Subsets.

(** A sub-multiset of the demands is, up to order, a subsequence. *)
Lemma submseteq_sum_sublist (sel D : list Z) :
  sel ⊆+ D → ∃ sel', sel' `sublist_of` D ∧ sum sel' = sum sel.
Proof.
  intros (sel' & Hperm & Hsub)%submseteq_sublist_r.
  exists sel'. split; [done|]. symmetry. by apply sum_perm.
Qed.

Lemma sum_sublist_le (sel D : list Z) :
  Forall (λ d, 0 < d) D → sel `sublist_of` D → sum sel ≤ sum D.
Proof.
  intros HD Hsub. induction Hsub as [|x l k _ IH|x l k _ IH].
  - done.
  - inversion_clear HD. rewrite !sum_cons. specialize (IH ltac:(done)). lia.
  - inversion_clear HD. rewrite sum_cons. specialize (IH ltac:(done)). lia.
Qed.

End Subsets.

(** ** auto_select *)

Section MaxByValue.

Lemma max_by_value_scan (others : list (string * Z)) (best : string * Z)
    (before after : list (string * Z)) :
  Forall (λ kv, kv.2 < best.2) before →
  Forall (λ kv, kv.2 ≤ best.2) after →
  ∃ before' after',
    before ++ best :: after ++ others
    = before' ++ max_by_value best others :: after'
    ∧ Forall (λ kv, kv.2 < (max_by_value best others).2) before'
    ∧ Forall (λ kv, kv.2 ≤ (max_by_value best others).2) after'.
Proof.
  revert best before after.
  induction others as [|kv others IH]; intros best before after Hlt Hle.
  - exists before, after. by rewrite app_nil_r.
  - unfold max_by_value. simpl. fold (max_by_value
      (if best.2 <? kv.2 then kv else best) others).
    destruct (Z.ltb_spec best.2 kv.2) as [Hnew|Hold].
    + destruct (IH kv (before ++ best :: after) []) as (b' & a' & Heq & ? & ?).
      * apply Forall_app. split.
        -- eapply Forall_impl; [exact Hlt|]. simpl. intros; lia.
        -- constructor; [done|].
           eapply Forall_impl; [exact Hle|]. simpl. intros; lia.
      * constructor.
      * exists b', a'. split; [|done]. rewrite <- Heq.
        by rewrite <- !app_assoc.
    + destruct (IH best before (after ++ [kv])) as (b' & a' & Heq & ? & ?).
      * done.
      * apply Forall_app. split; [done|]. by repeat constructor.
      * exists b', a'. split; [|done]. rewrite <- Heq.
        by rewrite <- !app_assoc.
Qed.

(** [max] over the report returns the first entry of maximal value. *)
Lemma max_by_value_first_max (first : string * Z)
    (others : list (string * Z)) :
  ∃ before after,
    first :: others = before ++ max_by_value first others :: after
    ∧ Forall (λ kv, kv.2 < (max_by_value first others).2) before
    ∧ Forall (λ kv, kv.2 ≤ (max_by_value first others).2) after.
Proof. by apply (max_by_value_scan others first [] []). Qed.

End MaxByValue.

(** ** Behaviour outside the valid inputs *)

Section NegativeCapacity.

Variables (C : Z) (D : list Z).
Hypothesis HC : C < 0.

Lemma for_each_skip {St} (xs : list Z) (body : Z → St → outcome St) (s : St) :
  (∀ x s, body x s = mret s) → for_each xs body s = mret s.
Proof.
  intros Hskip. induction xs as [|x xs IH]; simpl; [done|].
  by rewrite Hskip.
Qed.

(** With a negative capacity the rows of the table are empty, and the
    read of [dp[n][total_bandwidth]] is out of range. *)
Lemma dynamic_allocation_negative_capacity :
  dynamic_allocation C D = Raised IndexError.
Proof.
  unfold dynamic_allocation, fill_table.
  rewrite for_each_skip; cycle 1.
  { intros i dp. unfold range. by rewrite seqZ_nil by lia. }
  unfold mret at 1, outcome_ret at 1. rewrite bind_Returned. unfold get2.
  set (dp := (λ _, Py.repeat 0 (C + 1)) <$> range 0 (len D + 1)).
  destruct (getitem_in_range dp (len D)) as (row & Hrow & ->).
  { unfold dp, range, len.
    rewrite length_fmap, length_seqZ. lia. }
  apply list_lookup_fmap_Some in Hrow as (i & -> & _).
  rewrite bind_Returned. unfold Py.repeat.
  replace (Z.to_nat (C + 1)) with 0%nat by lia.
  change (replicate 0 0) with (@nil Z). by rewrite getitem_empty.
Qed.

(** The root call of the search is pruned at once. *)
Lemma backtracking_value_negative_capacity :
  backtracking_value C D = ([], 0).
Proof.
  unfold backtracking_value. rewrite backtrack_value_unfold.
  by destruct (Z.ltb_spec C 0); [|lia].
Qed.

(** The first draw is from [0, 0] and ends the loop. *)
Lemma random_allocation_negative_capacity (randint : nat → Z → Z → Z) :
  randint_contract randint → D ≠ [] →
  random_allocation randint C D = ([0], 0).
Proof.
  intros Hok HDne. unfold random_allocation.
  destruct D as [|d ds]; [done|]. simpl.
  destruct (Z.ltb_spec 0 C); [lia|].
  pose proof (Hok 0%nat 0 0 ltac:(lia)) as Hdraw.
  replace (randint 0%nat 0 0) with 0 by lia.
  destruct (Z.leb_spec (C - 0) 0); [|lia].
  f_equal. lia.
Qed.

(** The largest demand is granted the whole negative capacity. *)
Lemma greedy_allocation_negative_capacity :
  D ≠ [] → Forall (λ d, 0 < d) D → greedy_allocation C D = ([C], C).
Proof.
  intros HDne HD. unfold greedy_allocation.
  pose proof (sorted_reverse_positive D HD) as Hpos.
  pose proof (sorted_reverse_perm D) as Hperm.
  destruct (sorted_reverse D) as [|d ds].
  { apply Permutation_nil_l in Hperm. by subst. }
  inversion_clear Hpos as [|? ? Hd _]. simpl.
  replace (Z.min d C) with C by lia.
  destruct (Z.leb_spec (C - C) 0); [|lia].
  f_equal. lia.
Qed.

End NegativeCapacity.

(** ** The recursion depth of the search *)

Section BacktrackDepth.

Variable C : Z.

(** With at least one level of nesting available per undecided demand, no
    call overflows and the search returns its state. *)
Lemma backtrack_enough_depth (depth : nat) (rest current : list Z)
    (total : Z) (best : Z * list Z) :
  (length rest ≤ depth)%nat →
  backtrack depth C rest current total best
  = Returned (backtrack_value C rest current total best).
Proof.
  revert depth current total best.
  induction rest as [|d rest IH]; intros depth current total best Hlen;
    rewrite backtrack_value_unfold.
  - destruct depth; simpl; by destruct (C <? total).
  - destruct depth as [|depth]; [simpl in Hlen; lia|]. simpl in *.
    destruct (C <? total); [done|].
    rewrite IH by lia. rewrite bind_Returned. apply IH. lia.
Qed.

(** The recursion limit is the only error of the search. *)
Lemma backtrack_raises (depth : nat) (rest current : list Z) (total : Z)
    (best : Z * list Z) (e : exn) :
  backtrack depth C rest current total best = Raised e → e = RecursionError.
Proof.
  revert rest current total best.
  induction depth as [|depth IH]; intros [|d rest] current total best;
    simpl; destruct (C <? total); try done.
  - congruence.
  - destruct (backtrack depth C rest (current ++ [d]) (total + d) _)
      as [best'|e'] eqn:Hincl.
    + rewrite bind_Returned. apply IH.
    + intros [= <-]. by apply IH in Hincl.
Qed.

(** A call that is not pruned walks the exclude branch down to the last
    demand, so it overflows when fewer levels are available than demands
    are left. *)
Lemma backtrack_overflow (depth : nat) (rest current : list Z) (total : Z)
    (best : Z * list Z) :
  (depth < length rest)%nat → total ≤ C →
  backtrack depth C rest current total best = Raised RecursionError.
Proof.
  revert rest current total best.
  induction depth as [|depth IH]; intros [|d rest] current total best Hlen Hfit;
    simpl in *; try lia; destruct (Z.ltb_spec C total); try lia; [done|].
  destruct (backtrack depth C rest (current ++ [d]) (total + d) _)
    as [best'|e] eqn:Hincl.
  - rewrite bind_Returned. apply IH; [lia|done].
  - by rewrite (backtrack_raises _ _ _ _ _ _ Hincl).
Qed.

Variable D : list Z.

Lemma backtracking_allocation_returns (depth : nat) :
  (length D ≤ depth)%nat →
  backtracking_allocation depth C D = Returned (backtracking_value C D).
Proof.
  intros Hlen. unfold backtracking_allocation, backtracking_value.
  rewrite backtrack_enough_depth by done. rewrite bind_Returned.
  by destruct (backtrack_value C D [] 0 (0, [])).
Qed.

Lemma backtracking_allocation_overflow (depth : nat) :
  0 ≤ C → (depth < length D)%nat →
  backtracking_allocation depth C D = Raised RecursionError.
Proof.
  intros HC Hlen. unfold backtracking_allocation.
  by rewrite backtrack_overflow.
Qed.

(** With a negative capacity the root call is pruned before it recurses. *)
Lemma backtracking_allocation_negative_capacity (depth : nat) :
  C < 0 → backtracking_allocation depth C D = Returned ([], 0).
Proof.
  intros HC. unfold backtracking_allocation.
  destruct depth, D; simpl; by destruct (Z.ltb_spec C 0); try lia.
Qed.

End BacktrackDepth.

(** ** Demands of size 0 *)

Section NonNegativeDemands.

Lemma greedy_loop_remaining_bounds (ds allocation : list Z) (remaining : Z) :
  0 ≤ remaining → Forall (λ d, 0 ≤ d) ds →
  0 ≤ (greedy_loop ds allocation remaining).2 ≤ remaining.
Proof.
  intros Hr Hds. revert allocation remaining Hr.
  induction Hds as [|d ds Hd Hds IH]; intros allocation remaining Hr; simpl;
    [lia|].
  destruct (Z.leb_spec (remaining - Z.min d remaining) 0); simpl; [lia|].
  specialize (IH (allocation ++ [Z.min d remaining])
                (remaining - Z.min d remaining) ltac:(lia)).
  lia.
Qed.

Lemma greedy_allocation_bounds_nonneg (C : Z) (D : list Z) :
  0 ≤ C → Forall (λ d, 0 ≤ d) D → 0 ≤ (greedy_allocation C D).2 ≤ C.
Proof.
  intros HC HD. unfold greedy_allocation.
  assert (Forall (λ d, 0 ≤ d) (sorted_reverse D)) as Hsorted
    by (by rewrite sorted_reverse_perm).
  pose proof (greedy_loop_remaining_bounds (sorted_reverse D) [] C HC Hsorted).
  destruct (greedy_loop (sorted_reverse D) [] C) as [allocation remaining].
  simpl in *. lia.
Qed.

Lemma backtracking_value_bounds (C : Z) (D : list Z) :
  0 ≤ C → 0 ≤ (backtracking_value C D).2 ≤ C.
Proof.
  intros HC. split; [|by apply backtracking_value_within].
  unfold backtracking_value.
  pose proof (backtrack_value_mono C D [] 0 (0, [])) as Hmono.
  by destruct (backtrack_value C D [] 0 (0, [])).
Qed.

End NonNegativeDemands.

(** ** Further facts about the allocators *)

Section MoreListFacts.

Lemma sum_positive_nil (l : list Z) :
  Forall (λ d, 0 < d) l → sum l ≤ 0 → l = [].
Proof.
  intros Hl Hsum. destruct Hl as [|x l Hx Hl]; [done|].
  rewrite sum_cons in Hsum. pose proof (sum_nonneg l Hl). lia.
Qed.

(** A selection of positive demands that adds up to the whole is the
    whole. *)
Lemma sublist_sum_eq (sel D : list Z) :
  Forall (λ d, 0 < d) D → sel `sublist_of` D → sum sel = sum D → sel = D.
Proof.
  intros HD Hsub. induction Hsub as [|x l k Hsub IH|x l k Hsub IH]; intros Heq.
  - done.
  - inversion_clear HD. rewrite !sum_cons in Heq. f_equal. apply IH; [done|lia].
  - inversion_clear HD as [|? ? Hx Hk]. rewrite sum_cons in Heq.
    pose proof (sum_sublist_le _ _ Hk Hsub). lia.
Qed.

#[local] Instance Z_ge_antisymm : AntiSymm (=) Z.ge.
Proof. intros x y Hxy Hyx. lia. Qed.

(** The result of [sorted] depends on the elements only, not on the order
    they come in. *)
Lemma sorted_reverse_perm_eq (l k : list Z) :
  l ≡ₚ k → sorted_reverse l = sorted_reverse k.
Proof.
  intros Hperm. apply (StronglySorted_unique Z.ge).
  - apply sorted_reverse_sorted.
  - apply sorted_reverse_sorted.
  - by rewrite !sorted_reverse_perm.
Qed.

End MoreListFacts.

Section MoreGreedyFacts.

(** The loop grants whole demands until the first demand that does not fit
    the remaining capacity, which gets all that is left. *)
Lemma greedy_loop_shape (ds allocation : list Z) (remaining : Z) :
  0 ≤ remaining → Forall (λ d, 0 < d) ds →
  (greedy_loop ds allocation remaining).1 = allocation ++ ds
  ∨ ∃ (k : nat) (d : Z),
      ds !! k = Some d
      ∧ (greedy_loop ds allocation remaining).1
        = allocation ++ take k ds ++ [remaining - sum (take k ds)]
      ∧ 0 ≤ remaining - sum (take k ds) ≤ d.
Proof.
  intros Hr Hds. revert allocation remaining Hr.
  induction Hds as [|d ds Hd Hds IH]; intros allocation remaining Hr; simpl.
  - left. by rewrite app_nil_r.
  - destruct (Z.leb_spec (remaining - Z.min d remaining) 0) as [Hstop|Hgo].
    + right. exists 0%nat, d. simpl. rewrite sum_nil.
      replace (Z.min d remaining) with remaining by lia.
      replace (remaining - 0) with remaining by lia. repeat split; lia.
    + replace (Z.min d remaining) with d in * by lia.
      destruct (IH (allocation ++ [d]) (remaining - d) ltac:(lia))
        as [Hall|(k & d' & Hk & Hrun & Hlast)].
      * left. by rewrite Hall, <- app_assoc.
      * right. exists (S k), d'. simpl. rewrite sum_cons, Hrun, <- app_assoc.
        simpl. replace (remaining - (d + sum (take k ds)))
          with (remaining - d - sum (take k ds)) by lia.
        repeat split; (done || lia).
Qed.

(** When all demands fit, none is cut and the loop runs to the end. *)
Lemma greedy_loop_all_fit (ds allocation : list Z) (remaining : Z) :
  Forall (λ d, 0 < d) ds → sum ds ≤ remaining →
  greedy_loop ds allocation remaining = (allocation ++ ds, remaining - sum ds).
Proof.
  intros Hds. revert allocation remaining.
  induction Hds as [|d ds Hd Hds IH]; intros allocation remaining Hfit; simpl.
  - rewrite app_nil_r, sum_nil. f_equal. lia.
  - rewrite sum_cons in *. pose proof (sum_nonneg ds Hds).
    replace (Z.min d remaining) with d by lia.
    destruct (Z.leb_spec (remaining - d) 0) as [Hstop|Hgo].
    + rewrite (sum_positive_nil ds Hds) by lia. rewrite sum_nil.
      f_equal. lia.
    + rewrite IH by lia. rewrite <- app_assoc. f_equal. lia.
Qed.

End MoreGreedyFacts.

Section MoreRandomFacts.

Variable randint : nat → Z → Z → Z.

(** The amounts appended by the loop add up to the capacity it consumed,
    whatever is drawn. *)
Lemma random_loop_sum (ds : list Z) (k : nat) (allocation : list Z)
    (remaining : Z) :
  sum (random_loop randint ds k allocation remaining).1
  = sum allocation
    + (remaining - (random_loop randint ds k allocation remaining).2).
Proof.
  revert k allocation remaining.
  induction ds as [|d ds IH]; intros k allocation remaining; simpl; [lia|].
  set (alloc := randint k 0 (if 0 <? remaining then remaining else 0)).
  destruct (Z.leb_spec (remaining - alloc) 0); simpl.
  - rewrite sum_snoc. lia.
  - rewrite IH, sum_snoc. lia.
Qed.

Lemma random_loop_length (ds : list Z) (k : nat) (allocation : list Z)
    (remaining : Z) :
  (length allocation
   ≤ length (random_loop randint ds k allocation remaining).1
   ≤ length allocation + length ds)%nat.
Proof.
  revert k allocation remaining.
  induction ds as [|d ds IH]; intros k allocation remaining; simpl; [lia|].
  set (alloc := randint k 0 (if 0 <? remaining then remaining else 0)).
  destruct (Z.leb_spec (remaining - alloc) 0); simpl.
  - rewrite length_app. simpl. lia.
  - specialize (IH (S k) (allocation ++ [alloc]) (remaining - alloc)).
    rewrite length_app in IH. simpl in IH. lia.
Qed.

Hypothesis randint_ok : randint_contract randint.

(** Every amount drawn lies between 0 and the capacity still available. *)
Lemma random_loop_entries (ds : list Z) (k : nat) (allocation : list Z)
    (remaining bound : Z) :
  0 ≤ remaining ≤ bound →
  Forall (λ a, 0 ≤ a ≤ bound) allocation →
  Forall (λ a, 0 ≤ a ≤ bound)
    (random_loop randint ds k allocation remaining).1.
Proof.
  revert k allocation remaining.
  induction ds as [|d ds IH]; intros k allocation remaining Hr Hacc; simpl;
    [done|].
  set (hi := if 0 <? remaining then remaining else 0).
  assert (hi = remaining) as Hhi
    by (unfold hi; destruct (Z.ltb_spec 0 remaining); lia).
  pose proof (randint_ok k 0 hi ltac:(lia)) as Hdraw.
  assert (Forall (λ a, 0 ≤ a ≤ bound) (allocation ++ [randint k 0 hi]))
    as Hacc'.
  { apply Forall_app. split; [done|]. repeat constructor; lia. }
  destruct (Z.leb_spec (remaining - randint k 0 hi) 0); simpl; [done|].
  apply IH; [lia|done].
Qed.

End MoreRandomFacts.

Section RandomIgnoresSizes.

Variable randint : nat → Z → Z → Z.

(** The loop [for _ in demands] never reads a demand. *)
Lemma random_loop_same_length (ds ds' : list Z) (k : nat)
    (allocation : list Z) (remaining : Z) :
  length ds = length ds' →
  random_loop randint ds k allocation remaining
  = random_loop randint ds' k allocation remaining.
Proof.
  revert ds' k allocation remaining.
  induction ds as [|d ds IH]; intros [|d' ds'] k allocation remaining Hlen;
    simpl in *; try done.
  destruct (remaining - _ <=? 0); [done|]. apply IH. lia.
Qed.

End RandomIgnoresSizes.

Section MoreDynamicFacts.

(** Every value of the recurrence is the sum of some selection among the
    first [i] demands. *)
Lemma dp_spec_achieved (D : list Z) (i : nat) (w : Z) :
  ∃ sel, sel `sublist_of` take i D ∧ sum sel = dp_spec D i w.
Proof.
  revert w. induction i as [|j IH]; intros w.
  - exists []. split; [apply sublist_nil_l|done].
  - simpl. destruct (D !! j) as [d|] eqn:Hd.
    + rewrite (take_S_r _ _ _ Hd).
      destruct (IH w) as (sel1 & Hsel1 & Hsum1).
      destruct (IH (w - d)) as (sel2 & Hsel2 & Hsum2).
      destruct (d <=? w).
      * destruct (Z.max_spec (dp_spec D j w) (dp_spec D j (w - d) + d))
          as [[_ ->]|[_ ->]].
        -- exists (sel2 ++ [d]). split; [by apply sublist_app|].
           rewrite sum_snoc. lia.
        -- exists sel1. split; [by apply sublist_inserts_r|done].
      * exists sel1. split; [by apply sublist_inserts_r|done].
    + exists []. split; [apply sublist_nil_l|done].
Qed.

Lemma dp_spec_le_sum (D : list Z) (i : nat) (w : Z) :
  Forall (λ d, 0 < d) D → dp_spec D i w ≤ sum D.
Proof.
  intros HD. destruct (dp_spec_achieved D i w) as (sel & Hsel & <-).
  apply sum_sublist_le; [done|].
  etrans; [exact Hsel|apply sublist_take].
Qed.

End MoreDynamicFacts.

Section ResponseFacts.

Lemma greedy_allocation_nonneg (C : Z) (D : list Z) :
  0 ≤ C → Forall (λ d, 0 < d) D →
  Forall (λ a, 0 ≤ a) (greedy_allocation C D).1.
Proof.
  intros HC HD. unfold greedy_allocation.
  pose proof (sorted_reverse_positive D HD) as Hpos.
  pose proof (greedy_loop_shape (sorted_reverse D) [] C HC Hpos) as Hshape.
  destruct (greedy_loop (sorted_reverse D) [] C) as [allocation remaining].
  simpl in *. destruct Hshape as [->|(k & d & _ & -> & Hlast)].
  - by apply positive_nonneg.
  - apply Forall_app. split.
    + apply positive_nonneg. by apply Forall_take.
    + repeat constructor. lia.
Qed.

End ResponseFacts.

Section MoreRandomAllocationFacts.

Variable randint : nat → Z → Z → Z.

Lemma random_allocation_sum (C : Z) (D : list Z) :
  sum (random_allocation randint C D).1 = (random_allocation randint C D).2.
Proof.
  unfold random_allocation.
  pose proof (random_loop_sum randint D 0%nat [] C) as Hsum.
  destruct (random_loop randint D 0%nat [] C) as [allocation remaining].
  simpl in *. rewrite Hsum, sum_nil. lia.
Qed.

End MoreRandomAllocationFacts.

(** ** The properties of the engine *)

(** The list of 1200 demands of size 1 is longer than any recursion depth
    the interpreter offers with its recursion limit of 1000. *)
Lemma long_list_valid (C : Z) : 0 ≤ C → valid_input C (replicate 1200 1).
Proof. intros HC. split; [done|]. by apply Forall_replicate. Qed.

Lemma long_list_overflow (C : Z) :
  0 ≤ C →
  backtracking_allocation 1000 C (replicate 1200 1) = Raised RecursionError.
Proof.
  intros HC. apply backtracking_allocation_overflow; [done|].
  rewrite length_replicate. lia.
Qed.

Lemma auto_select_overflow (randint : nat → Z → Z → Z) (depth : nat)
    (C : Z) (D : list Z) :
  0 ≤ C → Forall (λ d, 0 < d) D → (depth < length D)%nat →
  auto_select randint depth C D = Raised RecursionError.
Proof.
  intros HC HD Hlen. unfold auto_select.
  destruct (dynamic_allocation_returns C D HC HD) as (allocation & -> & _).
  rewrite bind_Returned.
  by rewrite backtracking_allocation_overflow.
Qed.

(** C1 (as stated) fails for [backtracking_allocation]: on the valid input
    of capacity 100 and 1200 demands of size 1 the recursion exceeds the
    interpreter's limit, [RecursionError] is raised and no pair is
    returned. *)
Lemma within_capacity_long_list_counterexample :
  valid_input 100 (replicate 1200 1)
  ∧ backtracking_allocation 1000 100 (replicate 1200 1)
    = Raised RecursionError
  ∧ ¬ ∃ allocation total,
        backtracking_allocation 1000 100 (replicate 1200 1)
        = Returned (allocation, total)
        ∧ total ≤ 100.
Proof.
  split; [by apply long_list_valid|].
  split; [by apply long_list_overflow|].
  intros (allocation & total & Hrun & _).
  by rewrite long_list_overflow in Hrun.
Qed.

(** C1 (amended).  On every valid input (capacity [C >= 0], demands all
    positive) [greedy_allocation], [random_allocation] (whatever values
    [random.randint] draws within its documented range) and
    [dynamic_allocation] return an achieved total that does not exceed the
    capacity.  [backtracking_allocation] does so whenever the demand list
    is not longer than the recursion depth available; on a longer list it
    raises [RecursionError]. *)
Theorem achieved_total_within_capacity (randint : nat → Z → Z → Z)
    (depth : nat) (C : Z) (D : list Z) :
  valid_input C D → randint_contract randint →
  (greedy_allocation C D).2 ≤ C
  ∧ (random_allocation randint C D).2 ≤ C
  ∧ (∃ allocation total,
        dynamic_allocation C D = Returned (allocation, total) ∧ total ≤ C)
  ∧ ((length D ≤ depth)%nat →
     ∃ allocation total,
       backtracking_allocation depth C D = Returned (allocation, total)
       ∧ total ≤ C)
  ∧ ((depth < length D)%nat →
     backtracking_allocation depth C D = Raised RecursionError).
Proof.
  intros [HC HD] Hrand. repeat split.
  - rewrite greedy_allocation_total by done. lia.
  - by apply random_allocation_bound.
  - destruct (dynamic_allocation_returns C D HC HD) as (allocation & Hrun & _).
    exists allocation, (dp_spec D (length D) C). split; [done|].
    by apply dp_spec_le.
  - intros Hlen. rewrite backtracking_allocation_returns by done.
    exists (backtracking_value C D).1, (backtracking_value C D).2.
    split; [by destruct (backtracking_value C D)|].
    by apply backtracking_value_within.
  - intros Hlen. by apply backtracking_allocation_overflow.
Qed.

Lemma achieved_total_within_capacity_witness :
  valid_input 5 [2; 4] ∧ randint_contract (λ _ _ b, b)
  ∧ (greedy_allocation 5 [2; 4]).2 ≤ 5
  ∧ (random_allocation (λ _ _ b, b) 5 [2; 4]).2 ≤ 5
  ∧ (∃ allocation total,
        dynamic_allocation 5 [2; 4] = Returned (allocation, total) ∧ total ≤ 5)
  ∧ ((length [2; 4]%Z ≤ 2)%nat →
     ∃ allocation total,
       backtracking_allocation 2 5 [2; 4] = Returned (allocation, total)
       ∧ total ≤ 5)
  ∧ ((2 < length [2; 4]%Z)%nat →
     backtracking_allocation 2 5 [2; 4] = Raised RecursionError).
Proof.
  assert (valid_input 5 [2; 4]) as Hvalid
    by (split; [lia | repeat constructor]).
  assert (randint_contract (λ _ _ b, b)) as Hrand
    by (intros k a b Hab; simpl; lia).
  split; [exact Hvalid|]. split; [exact Hrand|].
  exact (achieved_total_within_capacity (λ _ _ b, b) 2 5 [2; 4] Hvalid Hrand).
Defined.

(** C2 (as stated) fails: on the valid input of capacity 100 and 1200
    demands of size 1 [dynamic_allocation] returns a total while
    [backtracking_allocation] raises [RecursionError] and returns none. *)
Lemma exact_optimizers_long_list_counterexample :
  valid_input 100 (replicate 1200 1)
  ∧ (∃ allocation total,
       dynamic_allocation 100 (replicate 1200 1)
       = Returned (allocation, total))
  ∧ backtracking_allocation 1000 100 (replicate 1200 1)
    = Raised RecursionError.
Proof.
  pose proof (long_list_valid 100 ltac:(lia)) as [HC HD].
  split; [by split|]. split; [|by apply long_list_overflow].
  destruct (dynamic_allocation_returns 100 _ HC HD) as (allocation & Hrun & _).
  eauto.
Qed.

(** C2 (amended).  On every valid input whose demand list is not longer
    than the recursion depth available, [dynamic_allocation] and
    [backtracking_allocation] both return, with the same achieved total. *)
Theorem exact_optimizers_agree (depth : nat) (C : Z) (D : list Z) :
  valid_input C D → (length D ≤ depth)%nat →
  ∃ allocation allocation' total,
    dynamic_allocation C D = Returned (allocation, total)
    ∧ backtracking_allocation depth C D = Returned (allocation', total).
Proof.
  intros [HC HD] Hlen.
  destruct (dynamic_allocation_returns C D HC HD)
    as (allocation & Hrun & Hsum & Hsub).
  rewrite backtracking_allocation_returns by done.
  exists allocation, (backtracking_value C D).1, (dp_spec D (length D) C).
  split; [done|].
  assert (dp_spec D (length D) C = (backtracking_value C D).2) as ->;
    [|by destruct (backtracking_value C D)].
  apply Z.le_antisymm.
  - rewrite <- Hsum, <- sum_reverse.
    apply backtracking_value_optimal; [done..|].
    rewrite sum_reverse, Hsum. by apply dp_spec_le.
  - rewrite <- backtracking_value_sum.
    apply dp_spec_optimal; [done| |].
    + apply backtracking_value_sublist.
    + rewrite backtracking_value_sum.
      by apply backtracking_value_within.
Qed.

Lemma exact_optimizers_agree_witness :
  valid_input 5 [2; 4] ∧ (length [2; 4]%Z ≤ 2)%nat
  ∧ ∃ allocation allocation' total,
      dynamic_allocation 5 [2; 4] = Returned (allocation, total)
      ∧ backtracking_allocation 2 5 [2; 4] = Returned (allocation', total).
Proof.
  assert (valid_input 5 [2; 4]) as Hvalid
    by (split; [lia | repeat constructor]).
  assert (length [2; 4]%Z ≤ 2)%nat as Hlen by (simpl; lia).
  split; [exact Hvalid|]. split; [exact Hlen|].
  exact (exact_optimizers_agree 2 5 [2; 4] Hvalid Hlen).
Defined.

(** C3.  On every valid input [dynamic_allocation] returns a selection of
    whole demands (a sub-multiset of [D]) whose sum is the returned total,
    and that total is the maximum of [sum S] over all sub-multisets [S] of
    [D] with [sum S <= C]. *)
Theorem dynamic_allocation_is_optimal (C : Z) (D : list Z) :
  valid_input C D →
  ∃ allocation total,
    dynamic_allocation C D = Returned (allocation, total)
    ∧ allocation ⊆+ D
    ∧ sum allocation = total
    ∧ total ≤ C
    ∧ ∀ sel, sel ⊆+ D → sum sel ≤ C → sum sel ≤ total.
Proof.
  intros [HC HD].
  destruct (dynamic_allocation_returns C D HC HD)
    as (allocation & Hrun & Hsum & Hsub).
  exists allocation, (dp_spec D (length D) C). repeat split; [done| |done| |].
  - rewrite <- (reverse_Permutation allocation). by apply sublist_submseteq.
  - by apply dp_spec_le.
  - intros sel Hsel Hfit.
    destruct (submseteq_sum_sublist sel D Hsel) as (sel' & Hsel' & Heq).
    rewrite <- Heq in *. by apply dp_spec_optimal.
Qed.

Lemma dynamic_allocation_is_optimal_witness :
  valid_input 5 [2; 4]
  ∧ ∃ allocation total,
      dynamic_allocation 5 [2; 4] = Returned (allocation, total)
      ∧ allocation ⊆+ [2; 4]
      ∧ sum allocation = total
      ∧ total ≤ 5
      ∧ ∀ sel, sel ⊆+ [2; 4] → sum sel ≤ 5 → sum sel ≤ total.
Proof.
  assert (valid_input 5 [2; 4]) as Hvalid
    by (split; [lia | repeat constructor]).
  split; [exact Hvalid|].
  exact (dynamic_allocation_is_optimal 5 [2; 4] Hvalid).
Defined.
(** C4 (as stated) fails: with capacity 10 and the single demand 20,
    [greedy_allocation] grants the partial amount 10 while
    [dynamic_allocation] can select nothing, so greedy's total exceeds the
    optimizer's. *)
Lemma greedy_exceeds_dynamic_counterexample :
  valid_input 10 [20]
  ∧ ∃ allocation total,
      dynamic_allocation 10 [20] = Returned (allocation, total)
      ∧ ¬ (greedy_allocation 10 [20]).2 ≤ total.
Proof.
  split; [split; [lia | repeat constructor]|].
  exists [], 0. split; [reflexivity|]. vm_compute. by intros H.
Qed.

(** C4 (amended).  On every valid input the inequality goes the other way:
    [dynamic_allocation]'s total is at most [greedy_allocation]'s total.
    Greedy's total is at most the optimizer's whenever greedy grants whole
    demands only (its allocation is a sub-multiset of [D]), in particular
    whenever all demands fit ([sum D <= C]). *)
Theorem greedy_versus_dynamic (C : Z) (D : list Z) :
  valid_input C D →
  ∃ allocation total,
    dynamic_allocation C D = Returned (allocation, total)
    ∧ total ≤ (greedy_allocation C D).2
    ∧ ((greedy_allocation C D).1 ⊆+ D → (greedy_allocation C D).2 ≤ total)
    ∧ (sum D ≤ C → (greedy_allocation C D).2 ≤ total).
Proof.
  intros [HC HD].
  destruct (dynamic_allocation_returns C D HC HD)
    as (allocation & Hrun & Hsum & Hsub).
  exists allocation, (dp_spec D (length D) C). split; [done|].
  pose proof (greedy_allocation_total C D HC HD) as Hgreedy.
  pose proof (dp_spec_le D (length D) C HC) as Hwithin.
  split; [|split].
  - pose proof (sum_sublist_le _ _ HD Hsub) as Hle.
    rewrite sum_reverse, Hsum in Hle. lia.
  - intros Hwhole.
    destruct (submseteq_sum_sublist _ _ Hwhole) as (sel & Hsel & Heq).
    rewrite greedy_allocation_sum in Heq. rewrite <- Heq.
    apply dp_spec_optimal; [done..|]. lia.
  - intros Hfit. rewrite Hgreedy.
    pose proof (dp_spec_optimal C D HD D ltac:(done) Hfit). lia.
Qed.

Lemma greedy_versus_dynamic_witness :
  valid_input 9 [2; 4]
  ∧ ∃ allocation total,
      dynamic_allocation 9 [2; 4] = Returned (allocation, total)
      ∧ total ≤ (greedy_allocation 9 [2; 4]).2
      ∧ ((greedy_allocation 9 [2; 4]).1 ⊆+ [2; 4]
         → (greedy_allocation 9 [2; 4]).2 ≤ total)
      ∧ (sum [2; 4] ≤ 9 → (greedy_allocation 9 [2; 4]).2 ≤ total).
Proof.
  assert (valid_input 9 [2; 4]) as Hvalid
    by (split; [lia | repeat constructor]).
  split; [exact Hvalid|].
  exact (greedy_versus_dynamic 9 [2; 4] Hvalid).
Defined.

(** C5.  Capacity 10 with the single demand 20: [greedy_allocation]
    returns allocation [[10]] with total 10, while [dynamic_allocation] and
    [backtracking_allocation] (which needs one level of recursion for the
    one demand) each return the empty allocation with total 0. *)
Theorem scenario_capacity_10_demand_20 (depth : nat) :
  (1 ≤ depth)%nat →
  greedy_allocation 10 [20] = ([10], 10)
  ∧ dynamic_allocation 10 [20] = Returned ([], 0)
  ∧ backtracking_allocation depth 10 [20] = Returned ([], 0).
Proof.
  intros Hdepth. repeat split; [reflexivity..|].
  by rewrite backtracking_allocation_returns by (simpl; lia).
Qed.

Lemma scenario_capacity_10_demand_20_witness :
  (1 ≤ 1)%nat
  ∧ greedy_allocation 10 [20] = ([10], 10)
  ∧ dynamic_allocation 10 [20] = Returned ([], 0)
  ∧ backtracking_allocation 1 10 [20] = Returned ([], 0).
Proof.
  assert (1 ≤ 1)%nat as Hdepth by lia.
  split; [exact Hdepth|].
  exact (scenario_capacity_10_demand_20 1 Hdepth).
Defined.

(** C6 (as stated) fails: capacity 10 with the single demand 0 is invalid
    input (a demand that is not positive), yet every strategy runs, none
    signals an error and each returns a result.  Likewise capacity -5 with
    the demand 3 is invalid, and the Greedy strategy returns the allocation
    [[-5]] with total -5. *)
Lemma invalid_input_not_rejected_counterexample :
  invalid_input 10 [0]
  ∧ run_strategy (λ _ a _, a) 1 Greedy 10 [0] = Returned ([0], 0)
  ∧ run_strategy (λ _ a _, a) 1 DynamicProgramming 10 [0] = Returned ([], 0)
  ∧ run_strategy (λ _ a _, a) 1 Backtracking 10 [0] = Returned ([], 0)
  ∧ run_strategy (λ _ a _, a) 1 Random 10 [0] = Returned ([0], 0)
  ∧ (∀ algo_choice,
       ¬ signals_error (run_strategy (λ _ a _, a) 1 algo_choice 10 [0]))
  ∧ invalid_input (-5) [3]
  ∧ run_strategy (λ _ a _, a) 1 Greedy (-5) [3] = Returned ([-5], -5).
Proof.
  split; [right; constructor; lia|].
  do 4 (split; [reflexivity|]).
  split; [|split; [left; lia|reflexivity]].
  intros [] [e He]; vm_compute in He; discriminate He.
Qed.

(** C6 (amended).  The core does not validate its input and has no
    InvalidInput error.

    A demand of 0 is accepted like any other: for a capacity [C >= 0] and
    demands none of which is negative, every strategy returns without error
    an allocation that adds up to a total between 0 and [C] (Backtracking
    provided the demand list is not longer than the recursion depth
    available).

    With a capacity below 0 the only error signalled is the [IndexError]
    of [dynamic_allocation]; Backtracking returns the empty allocation with
    total 0, and on a non-empty demand list Random (with draws in range)
    returns [[0]] with total 0 and, for positive demands, Greedy returns
    [[C]] with the negative total [C]. *)
Theorem core_does_not_validate_input (randint : nat → Z → Z → Z)
    (depth : nat) (C : Z) (D : list Z) :
  randint_contract randint →
  (0 ≤ C → Forall (λ d, 0 ≤ d) D →
   ∀ algo_choice,
     (algo_choice = Backtracking → (length D ≤ depth)%nat) →
     ∃ allocation total,
       run_strategy randint depth algo_choice C D
       = Returned (allocation, total)
       ∧ sum allocation = total
       ∧ 0 ≤ total ≤ C)
  ∧ (C < 0 →
     run_strategy randint depth DynamicProgramming C D = Raised IndexError
     ∧ run_strategy randint depth Backtracking C D = Returned ([], 0)
     ∧ (D ≠ [] → run_strategy randint depth Random C D = Returned ([0], 0))
     ∧ (D ≠ [] → Forall (λ d, 0 < d) D →
        run_strategy randint depth Greedy C D = Returned ([C], C))).
Proof.
  intros Hrand. split.
  - intros HC HD [] Hdepth; simpl.
    + exists (greedy_allocation C D).1, (greedy_allocation C D).2.
      split; [by destruct (greedy_allocation C D)|].
      split; [apply greedy_allocation_sum|].
      by apply greedy_allocation_bounds_nonneg.
    + destruct (dynamic_allocation_returns_nonneg C D HC HD)
        as (allocation & Hrun & Hsum & _).
      exists allocation, (dp_spec D (length D) C).
      split; [done|]. split; [done|].
      split; [apply dp_spec_nonneg|by apply dp_spec_le].
    + rewrite backtracking_allocation_returns by auto.
      exists (backtracking_value C D).1, (backtracking_value C D).2.
      split; [by destruct (backtracking_value C D)|].
      split; [apply backtracking_value_sum|].
      by apply backtracking_value_bounds.
    + exists (random_allocation randint C D).1,
        (random_allocation randint C D).2.
      split; [by destruct (random_allocation randint C D)|].
      split; [apply random_allocation_sum|].
      by apply random_allocation_bound.
  - intros HC. simpl. repeat split.
    + by apply dynamic_allocation_negative_capacity.
    + by apply backtracking_allocation_negative_capacity.
    + intros HD. by rewrite random_allocation_negative_capacity.
    + intros HDne HD. by rewrite greedy_allocation_negative_capacity.
Qed.

Lemma core_does_not_validate_input_witness :
  randint_contract (λ _ _ b, b)
  ∧ (0 ≤ 10 → Forall (λ d, 0 ≤ d) [0; 3] →
     ∀ algo_choice,
       (algo_choice = Backtracking → (length [0; 3]%Z ≤ 2)%nat) →
       ∃ allocation total,
         run_strategy (λ _ _ b, b) 2 algo_choice 10 [0; 3]
         = Returned (allocation, total)
         ∧ sum allocation = total
         ∧ 0 ≤ total ≤ 10)
  ∧ (10 < 0 →
     run_strategy (λ _ _ b, b) 2 DynamicProgramming 10 [0; 3]
     = Raised IndexError
     ∧ run_strategy (λ _ _ b, b) 2 Backtracking 10 [0; 3] = Returned ([], 0)
     ∧ ([0; 3] ≠ [] →
        run_strategy (λ _ _ b, b) 2 Random 10 [0; 3] = Returned ([0], 0))
     ∧ ([0; 3] ≠ [] → Forall (λ d, 0 < d) [0; 3] →
        run_strategy (λ _ _ b, b) 2 Greedy 10 [0; 3] = Returned ([10], 10))).
Proof.
  assert (randint_contract (λ _ _ b, b)) as Hrand
    by (intros k a b Hab; simpl; lia).
  split; [exact Hrand|].
  exact (core_does_not_validate_input (λ _ _ b, b) 2 10 [0; 3] Hrand).
Defined.

(** C7 (as stated) fails: on the valid input of capacity 100 and 1200
    demands of size 1 [auto_select] returns no best strategy, because its
    call of [backtracking_allocation] raises [RecursionError]. *)
Lemma auto_select_long_list_counterexample :
  valid_input 100 (replicate 1200 1)
  ∧ auto_select (λ _ a _, a) 1000 100 (replicate 1200 1)
    = Raised RecursionError.
Proof.
  pose proof (long_list_valid 100 ltac:(lia)) as [HC HD].
  split; [by split|].
  apply auto_select_overflow; [done..|]. rewrite length_replicate. lia.
Qed.

(** C7 (amended).  On every valid input whose demand list is not longer
    than the recursion depth available, [auto_select] returns as best
    strategy the first entry of maximal achieved total in the report, whose
    entries are in the order Greedy, Dynamic Programming, Backtracking,
    Random: every entry before the best one has a strictly smaller total
    and every entry after it a total that is not larger. *)
Theorem auto_select_first_maximum (randint : nat → Z → Z → Z) (depth : nat)
    (C : Z) (D : list Z) :
  valid_input C D → (length D ≤ depth)%nat →
  ∃ best_algo best_total results dynamic backtracking,
    auto_select randint depth C D = Returned (best_algo, best_total, results)
    ∧ dynamic_allocation C D = Returned dynamic
    ∧ backtracking_allocation depth C D = Returned backtracking
    ∧ results =
        [("Greedy", (greedy_allocation C D).2);
         ("Dynamic Programming", dynamic.2);
         ("Backtracking", backtracking.2);
         ("Random", (random_allocation randint C D).2)]%string
    ∧ ∃ before after,
        results = before ++ (best_algo, best_total) :: after
        ∧ Forall (λ kv, kv.2 < best_total) before
        ∧ Forall (λ kv, kv.2 ≤ best_total) after.
Proof.
  intros [HC HD] Hlen.
  destruct (dynamic_allocation_returns C D HC HD) as (allocation & Hrun & _).
  pose proof (backtracking_allocation_returns C D depth Hlen) as Hbt.
  unfold auto_select. rewrite Hrun, bind_Returned, Hbt, bind_Returned.
  cbv zeta.
  match goal with
  | |- context [max_by_value ?first ?others] =>
      destruct (max_by_value_first_max first others)
        as (before & after & Hsplit & Hbefore & Hafter);
      destruct (max_by_value first others) as [best_algo best_total]
  end.
  exists best_algo, best_total. do 3 eexists.
  do 4 (split; [reflexivity|]).
  by exists before, after.
Qed.

Lemma auto_select_first_maximum_witness :
  valid_input 5 [2; 4] ∧ (length [2; 4]%Z ≤ 2)%nat
  ∧ ∃ best_algo best_total results dynamic backtracking,
      auto_select (λ _ _ b, b) 2 5 [2; 4]
      = Returned (best_algo, best_total, results)
      ∧ dynamic_allocation 5 [2; 4] = Returned dynamic
      ∧ backtracking_allocation 2 5 [2; 4] = Returned backtracking
      ∧ results =
          [("Greedy", (greedy_allocation 5 [2; 4]).2);
           ("Dynamic Programming", dynamic.2);
           ("Backtracking", backtracking.2);
           ("Random", (random_allocation (λ _ _ b, b) 5 [2; 4]).2)]%string
      ∧ ∃ before after,
          results = before ++ (best_algo, best_total) :: after
          ∧ Forall (λ kv, kv.2 < best_total) before
          ∧ Forall (λ kv, kv.2 ≤ best_total) after.
Proof.
  assert (valid_input 5 [2; 4]) as Hvalid
    by (split; [lia | repeat constructor]).
  assert (length [2; 4]%Z ≤ 2)%nat as Hlen by (simpl; lia).
  split; [exact Hvalid|]. split; [exact Hlen|].
  exact (auto_select_first_maximum (λ _ _ b, b) 2 5 [2; 4] Hvalid Hlen).
Defined.

(** C8.  For every capacity [C >= 0] each of the four allocators applied
    to the empty demand list returns the empty allocation and total 0
    (the search does not recurse on an empty list, so this holds at any
    recursion depth). *)
Theorem empty_demand_list (randint : nat → Z → Z → Z) (depth : nat) (C : Z) :
  0 ≤ C →
  greedy_allocation C [] = ([], 0)
  ∧ random_allocation randint C [] = ([], 0)
  ∧ dynamic_allocation C [] = Returned ([], 0)
  ∧ backtracking_allocation depth C [] = Returned ([], 0).
Proof.
  intros HC. repeat split.
  - unfold greedy_allocation. simpl. f_equal. lia.
  - unfold random_allocation. simpl. f_equal. lia.
  - destruct (dynamic_allocation_returns C [] HC ltac:(constructor))
      as (allocation & Hrun & _ & Hsub).
    apply sublist_nil_r in Hsub.
    apply (f_equal reverse) in Hsub. rewrite reverse_involutive in Hsub.
    by subst.
  - unfold backtracking_allocation.
    destruct depth; simpl; by destruct (Z.ltb_spec C 0); try lia.
Qed.

Lemma empty_demand_list_witness :
  0 ≤ 7
  ∧ greedy_allocation 7 [] = ([], 0)
  ∧ random_allocation (λ _ _ b, b) 7 [] = ([], 0)
  ∧ dynamic_allocation 7 [] = Returned ([], 0)
  ∧ backtracking_allocation 0 7 [] = Returned ([], 0).
Proof.
  assert (0 ≤ 7) as HC by lia.
  split; [exact HC|].
  exact (empty_demand_list (λ _ _ b, b) 0 7 HC).
Defined.

(** C9.  On every valid input [greedy_allocation]'s achieved total is
    exactly [min(C, sum(D))]. *)
Theorem greedy_total_is_min (C : Z) (D : list Z) :
  valid_input C D → (greedy_allocation C D).2 = Z.min C (sum D).
Proof. intros [HC HD]. by apply greedy_allocation_total. Qed.

Lemma greedy_total_is_min_witness :
  valid_input 5 [2; 4]
  ∧ (greedy_allocation 5 [2; 4]).2 = Z.min 5 (sum [2; 4]).
Proof.
  assert (valid_input 5 [2; 4]) as Hvalid
    by (split; [lia | repeat constructor]).
  split; [exact Hvalid|].
  exact (greedy_total_is_min 5 [2; 4] Hvalid).
Defined.

(** C10 (as stated) fails: on the valid input of capacity 100 and 1200
    demands of size 1 [backtracking_allocation] returns no pair at all,
    the recursion being deeper than the interpreter allows. *)
Lemma backtracking_long_list_counterexample :
  valid_input 100 (replicate 1200 1)
  ∧ ¬ ∃ allocation total,
        backtracking_allocation 1000 100 (replicate 1200 1)
        = Returned (allocation, total).
Proof.
  split; [by apply long_list_valid|].
  intros (allocation & total & Hrun).
  by rewrite long_list_overflow in Hrun.
Qed.

(** C10 (amended).  On every valid input whose demand list is not longer
    than the recursion depth available, [backtracking_allocation] returns
    a pair whose allocation sums to the returned total and is an
    order-preserving subsequence of [D]: whole demands, in input order. *)
Theorem backtracking_result_consistent (depth : nat) (C : Z) (D : list Z) :
  valid_input C D → (length D ≤ depth)%nat →
  ∃ allocation total,
    backtracking_allocation depth C D = Returned (allocation, total)
    ∧ sum allocation = total
    ∧ allocation `sublist_of` D.
Proof.
  intros _ Hlen. rewrite backtracking_allocation_returns by done.
  exists (backtracking_value C D).1, (backtracking_value C D).2.
  split; [by destruct (backtracking_value C D)|]. split.
  - apply backtracking_value_sum.
  - apply backtracking_value_sublist.
Qed.

Lemma backtracking_result_consistent_witness :
  valid_input 5 [2; 4] ∧ (length [2; 4]%Z ≤ 2)%nat
  ∧ ∃ allocation total,
      backtracking_allocation 2 5 [2; 4] = Returned (allocation, total)
      ∧ sum allocation = total
      ∧ allocation `sublist_of` [2; 4].
Proof.
  assert (valid_input 5 [2; 4]) as Hvalid
    by (split; [lia | repeat constructor]).
  assert (length [2; 4]%Z ≤ 2)%nat as Hlen by (simpl; lia).
  split; [exact Hvalid|]. split; [exact Hlen|].
  exact (backtracking_result_consistent 2 5 [2; 4] Hvalid Hlen).
Defined.

(** ** Further properties of the allocators *)

(** *** greedy_allocation *)

(** X1.  On every input, valid or not, the amounts [greedy_allocation]
    lists add up to the total it reports. *)
Theorem greedy_allocation_sums_to_total (C : Z) (D : list Z) :
  sum (greedy_allocation C D).1 = (greedy_allocation C D).2.
Proof. apply greedy_allocation_sum. Qed.

(** X2.  On valid input [greedy_allocation] serves the demands in
    descending order: either every demand is granted in full, or the
    [k] largest are granted in full and the next one gets exactly the
    capacity left, which does not exceed it; no further entry follows. *)
Theorem greedy_grants_descending_prefix (C : Z) (D : list Z) :
  valid_input C D →
  (greedy_allocation C D).1 = sorted_reverse D
  ∨ ∃ (k : nat) (d : Z),
      sorted_reverse D !! k = Some d
      ∧ (greedy_allocation C D).1
        = take k (sorted_reverse D) ++ [C - sum (take k (sorted_reverse D))]
      ∧ 0 ≤ C - sum (take k (sorted_reverse D)) ≤ d.
Proof.
  intros [HC HD]. unfold greedy_allocation.
  pose proof (greedy_loop_shape (sorted_reverse D) [] C HC
                (sorted_reverse_positive D HD)) as Hshape.
  by destruct (greedy_loop (sorted_reverse D) [] C).
Qed.

Lemma greedy_grants_descending_prefix_witness :
  valid_input 7 [2; 4; 3]
  ∧ ((greedy_allocation 7 [2; 4; 3]).1 = sorted_reverse [2; 4; 3]
     ∨ ∃ (k : nat) (d : Z),
         sorted_reverse [2; 4; 3] !! k = Some d
         ∧ (greedy_allocation 7 [2; 4; 3]).1
           = take k (sorted_reverse [2; 4; 3])
             ++ [7 - sum (take k (sorted_reverse [2; 4; 3]))]
         ∧ 0 ≤ 7 - sum (take k (sorted_reverse [2; 4; 3])) ≤ d).
Proof.
  assert (valid_input 7 [2; 4; 3]) as Hvalid
    by (split; [lia | repeat constructor]).
  split; [exact Hvalid|].
  exact (greedy_grants_descending_prefix 7 [2; 4; 3] Hvalid).
Defined.

(** X3.  On valid input whose demands all fit ([sum(D) <= C]),
    [greedy_allocation] grants every demand in full, listed in descending
    order, and reports [sum(D)]. *)
Theorem greedy_all_demands_fit (C : Z) (D : list Z) :
  valid_input C D → sum D ≤ C →
  greedy_allocation C D = (sorted_reverse D, sum D).
Proof.
  intros [HC HD] Hfit. unfold greedy_allocation.
  rewrite greedy_loop_all_fit.
  - simpl. rewrite (sum_perm _ _ (sorted_reverse_perm D)). f_equal. lia.
  - by apply sorted_reverse_positive.
  - by rewrite (sum_perm _ _ (sorted_reverse_perm D)).
Qed.

Lemma greedy_all_demands_fit_witness :
  valid_input 9 [2; 4; 3] ∧ sum [2; 4; 3] ≤ 9
  ∧ greedy_allocation 9 [2; 4; 3] = (sorted_reverse [2; 4; 3], sum [2; 4; 3]).
Proof.
  assert (valid_input 9 [2; 4; 3]) as Hvalid
    by (split; [lia | repeat constructor]).
  assert (sum [2; 4; 3] ≤ 9) as Hfit by (vm_compute; discriminate).
  split; [exact Hvalid|]. split; [exact Hfit|].
  exact (greedy_all_demands_fit 9 [2; 4; 3] Hvalid Hfit).
Defined.

(** X4.  The result of [greedy_allocation] does not depend on the order in
    which the demands are given: rearranging the demand list changes
    neither the allocation nor the total. *)
Theorem greedy_ignores_input_order (C : Z) (D D' : list Z) :
  D ≡ₚ D' → greedy_allocation C D = greedy_allocation C D'.
Proof.
  intros Hperm. unfold greedy_allocation.
  by rewrite (sorted_reverse_perm_eq D D' Hperm).
Qed.

Lemma greedy_ignores_input_order_witness :
  [2; 4] ≡ₚ [4; 2] ∧ greedy_allocation 5 [2; 4] = greedy_allocation 5 [4; 2].
Proof.
  assert ([2; 4] ≡ₚ [4; 2]) as Hperm by apply perm_swap.
  split; [exact Hperm|].
  exact (greedy_ignores_input_order 5 [2; 4] [4; 2] Hperm).
Defined.

(** *** random_allocation *)

(** X5.  On every input and for every sequence of draws, the amounts
    [random_allocation] lists add up to the total it reports. *)
Theorem random_allocation_sums_to_total (randint : nat → Z → Z → Z)
    (C : Z) (D : list Z) :
  sum (random_allocation randint C D).1 = (random_allocation randint C D).2.
Proof.
  unfold random_allocation.
  pose proof (random_loop_sum randint D 0%nat [] C) as Hsum.
  destruct (random_loop randint D 0%nat [] C) as [allocation remaining].
  simpl in *. rewrite Hsum, sum_nil. lia.
Qed.

(** X6.  For a capacity [C >= 0] and draws within the range asked for,
    [random_allocation] lists at most one amount per demand (at least one
    when there is a demand), each between 0 and [C]. *)
Theorem random_allocation_grants_in_range (randint : nat → Z → Z → Z)
    (C : Z) (D : list Z) :
  0 ≤ C → randint_contract randint →
  Forall (λ a, 0 ≤ a ≤ C) (random_allocation randint C D).1
  ∧ (length (random_allocation randint C D).1 ≤ length D)%nat
  ∧ (D ≠ [] → (random_allocation randint C D).1 ≠ []).
Proof.
  intros HC Hrand. unfold random_allocation.
  pose proof (random_loop_entries randint Hrand D 0%nat [] C C
                ltac:(lia) ltac:(constructor)) as Hentries.
  pose proof (random_loop_length randint D 0%nat [] C) as Hlen.
  assert (D ≠ [] → (random_loop randint D 0%nat [] C).1 ≠ []) as Hne.
  { destruct D as [|d ds]; [done|]. intros _. simpl.
    set (alloc := randint 0%nat 0 (if 0 <? C then C else 0)).
    destruct (C - alloc <=? 0); simpl; [done|].
    pose proof (random_loop_length randint ds 1%nat [alloc] (C - alloc))
      as Hgrow.
    intros Hnil. rewrite Hnil in Hgrow. simpl in Hgrow. lia. }
  destruct (random_loop randint D 0%nat [] C) as [allocation remaining].
  simpl in *. repeat split; (done || lia).
Qed.

Lemma random_allocation_grants_in_range_witness :
  0 ≤ 5 ∧ randint_contract (λ _ _ b, b)
  ∧ Forall (λ a, 0 ≤ a ≤ 5) (random_allocation (λ _ _ b, b) 5 [2; 4]).1
  ∧ (length (random_allocation (λ _ _ b, b) 5 [2; 4]%Z).1
     ≤ length [2; 4]%Z)%nat
  ∧ ([2; 4] ≠ [] → (random_allocation (λ _ _ b, b) 5 [2; 4]).1 ≠ []).
Proof.
  assert (0 ≤ 5) as HC by lia.
  assert (randint_contract (λ _ _ b, b)) as Hrand
    by (intros k a b Hab; simpl; lia).
  split; [exact HC|]. split; [exact Hrand|].
  exact (random_allocation_grants_in_range (λ _ _ b, b) 5 [2; 4] HC Hrand).
Defined.

(** X7.  [random_allocation] never looks at the size of a demand: for the
    same draws, two demand lists of the same length give the same result. *)
Theorem random_ignores_demand_sizes (randint : nat → Z → Z → Z) (C : Z)
    (D D' : list Z) :
  length D = length D' →
  random_allocation randint C D = random_allocation randint C D'.
Proof.
  intros Hlen. unfold random_allocation.
  by rewrite (random_loop_same_length randint D D' 0%nat [] C Hlen).
Qed.

Lemma random_ignores_demand_sizes_witness :
  length ([2; 4] : list Z) = length ([70; 1] : list Z)
  ∧ random_allocation (λ _ _ b, b) 5 [2; 4]
    = random_allocation (λ _ _ b, b) 5 [70; 1].
Proof.
  assert (length ([2; 4] : list Z) = length ([70; 1] : list Z)) as Hlen
    by reflexivity.
  split; [exact Hlen|].
  exact (random_ignores_demand_sizes (λ _ _ b, b) 5 [2; 4] [70; 1] Hlen).
Defined.

(** *** dynamic_allocation *)

(** X8.  On valid input, after the table is filled every entry
    [dp[i][w]] ([0 <= i <= n], [0 <= w <= C]) holds the best sum within
    [w] of a selection among the first [i] demands: it is within [w], some
    selection reaches it, and no selection within [w] exceeds it. *)
Theorem fill_table_entries_optimal (C : Z) (D : list Z) :
  valid_input C D →
  ∃ dp,
    fill_table C D ((λ _, Py.repeat 0 (C + 1)) <$> range 0 (len D + 1))
    = Returned dp
    ∧ ∀ i w, 0 ≤ i ≤ len D → 0 ≤ w ≤ C →
        ∃ v, get2 dp i w = Returned v
             ∧ v ≤ w
             ∧ (∃ sel, sel `sublist_of` take (Z.to_nat i) D ∧ sum sel = v)
             ∧ ∀ sel, sel `sublist_of` take (Z.to_nat i) D →
                      sum sel ≤ w → sum sel ≤ v.
Proof.
  intros [HC HD].
  destruct (fill_table_filled C D HC (positive_nonneg D HD))
    as (dp & Hrun & Hfull).
  exists dp. split; [done|]. intros i w Hi Hw.
  exists (dp_spec D (Z.to_nat i) w). repeat split.
  - apply (filled_get2 C D HC (len D) C dp); [done..|lia].
  - apply dp_spec_le. lia.
  - apply dp_spec_achieved.
  - intros sel Hsel Hfit. apply dp_spec_upper; [done| |done..].
    unfold len in Hi. lia.
Qed.

Lemma fill_table_entries_optimal_witness :
  valid_input 3 [2; 4]
  ∧ ∃ dp,
      fill_table 3 [2; 4] ((λ _, Py.repeat 0 (3 + 1)) <$> range 0 (len [2; 4] + 1))
      = Returned dp
      ∧ ∀ i w, 0 ≤ i ≤ len [2; 4] → 0 ≤ w ≤ 3 →
          ∃ v, get2 dp i w = Returned v
               ∧ v ≤ w
               ∧ (∃ sel, sel `sublist_of` take (Z.to_nat i) [2; 4]
                         ∧ sum sel = v)
               ∧ ∀ sel, sel `sublist_of` take (Z.to_nat i) [2; 4] →
                        sum sel ≤ w → sum sel ≤ v.
Proof.
  assert (valid_input 3 [2; 4]) as Hvalid
    by (split; [lia | repeat constructor]).
  split; [exact Hvalid|].
  exact (fill_table_entries_optimal 3 [2; 4] Hvalid).
Defined.

(** X9.  On valid input [dynamic_allocation] lists the demands it selects
    latest first: read backwards, its allocation is an order-preserving
    subsequence of the demand list. *)
Theorem dynamic_allocation_reverse_input_order (C : Z) (D : list Z) :
  valid_input C D →
  ∃ allocation total,
    dynamic_allocation C D = Returned (allocation, total)
    ∧ reverse allocation `sublist_of` D.
Proof.
  intros [HC HD].
  destruct (dynamic_allocation_returns C D HC HD)
    as (allocation & Hrun & _ & Hsub).
  by exists allocation, (dp_spec D (length D) C).
Qed.

Lemma dynamic_allocation_reverse_input_order_witness :
  valid_input 7 [2; 4; 3]
  ∧ ∃ allocation total,
      dynamic_allocation 7 [2; 4; 3] = Returned (allocation, total)
      ∧ reverse allocation `sublist_of` [2; 4; 3].
Proof.
  assert (valid_input 7 [2; 4; 3]) as Hvalid
    by (split; [lia | repeat constructor]).
  split; [exact Hvalid|].
  exact (dynamic_allocation_reverse_input_order 7 [2; 4; 3] Hvalid).
Defined.

(** X10.  On valid input whose demands all fit ([sum(D) <= C]),
    [dynamic_allocation] selects every demand: it returns the demand list
    reversed, with total [sum(D)]. *)
Theorem dynamic_all_demands_fit (C : Z) (D : list Z) :
  valid_input C D → sum D ≤ C →
  dynamic_allocation C D = Returned (reverse D, sum D).
Proof.
  intros [HC HD] Hfit.
  destruct (dynamic_allocation_returns C D HC HD)
    as (allocation & Hrun & Hsum & Hsub).
  pose proof (dp_spec_optimal C D HD D ltac:(done) Hfit) as Hlow.
  pose proof (dp_spec_le_sum D (length D) C HD) as Hhigh.
  assert (reverse allocation = D) as Hall.
  { apply sublist_sum_eq; [done..|]. rewrite sum_reverse. lia. }
  apply (f_equal reverse) in Hall. rewrite reverse_involutive in Hall.
  rewrite Hrun, Hall. do 2 f_equal. lia.
Qed.

Lemma dynamic_all_demands_fit_witness :
  valid_input 9 [2; 4; 3] ∧ sum [2; 4; 3] ≤ 9
  ∧ dynamic_allocation 9 [2; 4; 3]
    = Returned (reverse [2; 4; 3], sum [2; 4; 3]).
Proof.
  assert (valid_input 9 [2; 4; 3]) as Hvalid
    by (split; [lia | repeat constructor]).
  assert (sum [2; 4; 3] ≤ 9) as Hfit by (vm_compute; discriminate).
  split; [exact Hvalid|]. split; [exact Hfit|].
  exact (dynamic_all_demands_fit 9 [2; 4; 3] Hvalid Hfit).
Defined.

(** X11.  Raising the capacity never lowers the total [dynamic_allocation]
    achieves on the same positive demands. *)
Theorem dynamic_total_monotone_in_capacity (C C' : Z) (D : list Z) :
  valid_input C D → C ≤ C' →
  ∃ allocation total allocation' total',
    dynamic_allocation C D = Returned (allocation, total)
    ∧ dynamic_allocation C' D = Returned (allocation', total')
    ∧ total ≤ total'.
Proof.
  intros [HC HD] Hle.
  destruct (dynamic_allocation_returns C D HC HD)
    as (allocation & Hrun & Hsum & Hsub).
  destruct (dynamic_allocation_returns C' D ltac:(lia) HD)
    as (allocation' & Hrun' & _ & _).
  exists allocation, (dp_spec D (length D) C).
  exists allocation', (dp_spec D (length D) C').
  repeat split; [done..|].
  rewrite <- Hsum, <- sum_reverse.
  apply dp_spec_optimal; [done..|].
  rewrite sum_reverse, Hsum. pose proof (dp_spec_le D (length D) C HC). lia.
Qed.

Lemma dynamic_total_monotone_in_capacity_witness :
  valid_input 3 [2; 4] ∧ 3 ≤ 5
  ∧ ∃ allocation total allocation' total',
      dynamic_allocation 3 [2; 4] = Returned (allocation, total)
      ∧ dynamic_allocation 5 [2; 4] = Returned (allocation', total')
      ∧ total ≤ total'.
Proof.
  assert (valid_input 3 [2; 4]) as Hvalid
    by (split; [lia | repeat constructor]).
  assert (3 ≤ 5) as Hle by lia.
  split; [exact Hvalid|]. split; [exact Hle|].
  exact (dynamic_total_monotone_in_capacity 3 5 [2; 4] Hvalid Hle).
Defined.

(** X12.  On valid input [dynamic_allocation] uses the capacity up
    exactly when some sub-multiset of the demands adds up to the
    capacity. *)
Theorem dynamic_fills_capacity_iff (C : Z) (D : list Z) :
  valid_input C D →
  ∃ allocation total,
    dynamic_allocation C D = Returned (allocation, total)
    ∧ (total = C ↔ ∃ sel, sel ⊆+ D ∧ sum sel = C).
Proof.
  intros [HC HD].
  destruct (dynamic_allocation_returns C D HC HD)
    as (allocation & Hrun & Hsum & Hsub).
  exists allocation, (dp_spec D (length D) C). split; [done|]. split.
  - intros Heq. exists allocation. split; [|lia].
    rewrite <- (reverse_Permutation allocation). by apply sublist_submseteq.
  - intros (sel & Hsel & Heq).
    destruct (submseteq_sum_sublist sel D Hsel) as (sel' & Hsel' & Heq').
    pose proof (dp_spec_optimal C D HD sel' Hsel' ltac:(lia)).
    pose proof (dp_spec_le D (length D) C HC). lia.
Qed.

Lemma dynamic_fills_capacity_iff_witness :
  valid_input 6 [2; 4]
  ∧ ∃ allocation total,
      dynamic_allocation 6 [2; 4] = Returned (allocation, total)
      ∧ (total = 6 ↔ ∃ sel, sel ⊆+ [2; 4] ∧ sum sel = 6).
Proof.
  assert (valid_input 6 [2; 4]) as Hvalid
    by (split; [lia | repeat constructor]).
  split; [exact Hvalid|].
  exact (dynamic_fills_capacity_iff 6 [2; 4] Hvalid).
Defined.

(** *** backtracking_allocation *)

(** X13.  On every integer input, valid or not, whose demand list is not
    longer than the recursion depth available, [backtracking_allocation]
    returns a total that is never negative and never above the capacity
    unless the capacity is negative, in which case it is 0. *)
Theorem backtracking_total_bounds_any_input (depth : nat) (C : Z)
    (D : list Z) :
  (length D ≤ depth)%nat →
  ∃ allocation total,
    backtracking_allocation depth C D = Returned (allocation, total)
    ∧ 0 ≤ total ≤ Z.max 0 C.
Proof.
  intros Hlen. rewrite backtracking_allocation_returns by done.
  exists (backtracking_value C D).1, (backtracking_value C D).2.
  split; [by destruct (backtracking_value C D)|].
  destruct (Z.lt_ge_cases C 0) as [Hneg|Hpos].
  - rewrite backtracking_value_negative_capacity by done. simpl. lia.
  - pose proof (backtracking_value_bounds C D Hpos). lia.
Qed.

Lemma backtracking_total_bounds_any_input_witness :
  (length [2; -4]%Z ≤ 2)%nat
  ∧ ∃ allocation total,
      backtracking_allocation 2 5 [2; -4] = Returned (allocation, total)
      ∧ 0 ≤ total ≤ Z.max 0 5.
Proof.
  assert (length [2; -4]%Z ≤ 2)%nat as Hlen by (simpl; lia).
  split; [exact Hlen|].
  exact (backtracking_total_bounds_any_input 2 5 [2; -4] Hlen).
Defined.

(** X14.  On valid input whose demand list is not longer than the
    recursion depth available, the total [backtracking_allocation] returns
    is the optimum of the subset-sum problem: it is within the capacity and
    no sub-multiset of the demands that fits the capacity adds up to
    more. *)
Theorem backtracking_allocation_is_optimal (depth : nat) (C : Z)
    (D : list Z) :
  valid_input C D → (length D ≤ depth)%nat →
  ∃ allocation total,
    backtracking_allocation depth C D = Returned (allocation, total)
    ∧ total ≤ C
    ∧ ∀ sel, sel ⊆+ D → sum sel ≤ C → sum sel ≤ total.
Proof.
  intros [HC HD] Hlen. rewrite backtracking_allocation_returns by done.
  exists (backtracking_value C D).1, (backtracking_value C D).2.
  split; [by destruct (backtracking_value C D)|].
  split; [by apply backtracking_value_within|].
  intros sel Hsel Hfit.
  destruct (submseteq_sum_sublist sel D Hsel) as (sel' & Hsel' & Heq).
  rewrite <- Heq in *. by apply backtracking_value_optimal.
Qed.

Lemma backtracking_allocation_is_optimal_witness :
  valid_input 5 [2; 4] ∧ (length [2; 4]%Z ≤ 2)%nat
  ∧ ∃ allocation total,
      backtracking_allocation 2 5 [2; 4] = Returned (allocation, total)
      ∧ total ≤ 5
      ∧ ∀ sel, sel ⊆+ [2; 4] → sum sel ≤ 5 → sum sel ≤ total.
Proof.
  assert (valid_input 5 [2; 4]) as Hvalid
    by (split; [lia | repeat constructor]).
  assert (length [2; 4]%Z ≤ 2)%nat as Hlen by (simpl; lia).
  split; [exact Hvalid|]. split; [exact Hlen|].
  exact (backtracking_allocation_is_optimal 2 5 [2; 4] Hvalid Hlen).
Defined.

(** X15.  On valid input whose demands all fit ([sum(D) <= C]) and whose
    demand list is not longer than the recursion depth available,
    [backtracking_allocation] selects every demand: it returns the demand
    list itself, with total [sum(D)]. *)
Theorem backtracking_all_demands_fit (depth : nat) (C : Z) (D : list Z) :
  valid_input C D → sum D ≤ C → (length D ≤ depth)%nat →
  backtracking_allocation depth C D = Returned (D, sum D).
Proof.
  intros [HC HD] Hfit Hlen. rewrite backtracking_allocation_returns by done.
  pose proof (backtracking_value_sum C D) as Hsum.
  pose proof (backtracking_value_sublist C D) as Hsub.
  pose proof (backtracking_value_optimal C D D HD ltac:(done) Hfit) as Hlow.
  pose proof (sum_sublist_le _ _ HD Hsub) as Hhigh.
  assert ((backtracking_value C D).1 = D) as Hall
    by (apply sublist_sum_eq; [done..|lia]).
  destruct (backtracking_value C D) as [allocation total].
  simpl in *. subst allocation. do 2 f_equal. lia.
Qed.

Lemma backtracking_all_demands_fit_witness :
  valid_input 9 [2; 4; 3] ∧ sum [2; 4; 3] ≤ 9
  ∧ (length [2; 4; 3]%Z ≤ 3)%nat
  ∧ backtracking_allocation 3 9 [2; 4; 3]
    = Returned ([2; 4; 3], sum [2; 4; 3]).
Proof.
  assert (valid_input 9 [2; 4; 3]) as Hvalid
    by (split; [lia | repeat constructor]).
  assert (sum [2; 4; 3] ≤ 9) as Hfit by (vm_compute; discriminate).
  assert (length [2; 4; 3]%Z ≤ 3)%nat as Hlen by (simpl; lia).
  split; [exact Hvalid|]. split; [exact Hfit|]. split; [exact Hlen|].
  exact (backtracking_all_demands_fit 3 9 [2; 4; 3] Hvalid Hfit Hlen).
Defined.

(** X21.  For a capacity [C >= 0] and any demands, valid or not,
    [backtracking_allocation] returns a result when the demand list is not
    longer than the recursion depth available, and raises [RecursionError]
    when it is longer. *)
Theorem backtracking_recursion_depth (depth : nat) (C : Z) (D : list Z) :
  0 ≤ C →
  ((length D ≤ depth)%nat →
   ∃ result, backtracking_allocation depth C D = Returned result)
  ∧ ((depth < length D)%nat →
     backtracking_allocation depth C D = Raised RecursionError).
Proof.
  intros HC. split; intros Hlen.
  - rewrite backtracking_allocation_returns by done. eauto.
  - by apply backtracking_allocation_overflow.
Qed.

Lemma backtracking_recursion_depth_witness :
  0 ≤ 5
  ∧ ((length [2; 4; 3]%Z ≤ 2)%nat →
     ∃ result, backtracking_allocation 2 5 [2; 4; 3] = Returned result)
  ∧ ((2 < length [2; 4; 3]%Z)%nat →
     backtracking_allocation 2 5 [2; 4; 3] = Raised RecursionError).
Proof.
  assert (0 ≤ 5) as HC by lia.
  split; [exact HC|].
  exact (backtracking_recursion_depth 2 5 [2; 4; 3] HC).
Defined.

(** *** Capacity 0 *)

(** X16.  With capacity 0 and positive demands nothing is granted, but
    the allocators differ in what they list: the exact optimizers return
    the empty allocation ([backtracking_allocation] provided the demand
    list is not longer than the recursion depth available), while on a
    non-empty demand list [greedy_allocation] and [random_allocation]
    return the single entry 0. *)
Theorem zero_capacity (randint : nat → Z → Z → Z) (depth : nat)
    (D : list Z) :
  Forall (λ d, 0 < d) D → randint_contract randint →
  dynamic_allocation 0 D = Returned ([], 0)
  ∧ ((length D ≤ depth)%nat →
     backtracking_allocation depth 0 D = Returned ([], 0))
  ∧ (D ≠ [] →
     greedy_allocation 0 D = ([0], 0)
     ∧ random_allocation randint 0 D = ([0], 0)).
Proof.
  intros HD Hrand. repeat split.
  - destruct (dynamic_allocation_returns 0 D ltac:(lia) HD)
      as (allocation & Hrun & Hsum & Hsub).
    rewrite dp_spec_zero in *.
    assert (reverse allocation = []) as Hnil.
    { apply sum_positive_nil; [by eapply sublist_positive|].
      rewrite sum_reverse. lia. }
    apply (f_equal reverse) in Hnil. rewrite reverse_involutive in Hnil.
    by rewrite Hrun, Hnil.
  - intros Hlen. rewrite backtracking_allocation_returns by done.
    pose proof (backtracking_value_sum 0 D) as Hsum.
    pose proof (backtracking_value_sublist 0 D) as Hsub.
    pose proof (backtracking_value_within 0 D ltac:(lia)) as Hle.
    assert ((backtracking_value 0 D).1 = []) as Hnil.
    { apply sum_positive_nil; [by eapply sublist_positive|lia]. }
    destruct (backtracking_value 0 D) as [allocation total].
    simpl in *. subst allocation. rewrite sum_nil in Hsum. by subst.
  - unfold greedy_allocation.
    pose proof (sorted_reverse_positive D HD) as Hpos.
    pose proof (sorted_reverse_perm D) as Hperm.
    destruct (sorted_reverse D) as [|d ds].
    { apply Permutation_nil_l in Hperm. by subst. }
    inversion_clear Hpos as [|? ? Hd _]. simpl.
    by replace (Z.min d 0) with 0 by lia.
  - unfold random_allocation. destruct D as [|d ds]; [done|]. simpl.
    pose proof (Hrand 0%nat 0 0 ltac:(lia)) as Hdraw.
    by replace (randint 0%nat 0 0) with 0 by lia.
Qed.

Lemma zero_capacity_witness :
  Forall (λ d, 0 < d) [5; 10] ∧ randint_contract (λ _ _ b, b)
  ∧ dynamic_allocation 0 [5; 10] = Returned ([], 0)
  ∧ ((length [5; 10]%Z ≤ 2)%nat →
     backtracking_allocation 2 0 [5; 10] = Returned ([], 0))
  ∧ ([5; 10] ≠ [] →
     greedy_allocation 0 [5; 10] = ([0], 0)
     ∧ random_allocation (λ _ _ b, b) 0 [5; 10] = ([0], 0)).
Proof.
  assert (Forall (λ d, 0 < d) [5; 10]) as HD by (repeat constructor).
  assert (randint_contract (λ _ _ b, b)) as Hrand
    by (intros k a b Hab; simpl; lia).
  split; [exact HD|]. split; [exact Hrand|].
  exact (zero_capacity (λ _ _ b, b) 2 [5; 10] HD Hrand).
Defined.

(** *** auto_select *)

(** X17.  On valid input whose demand list is not longer than the
    recursion depth available, and with draws in range, [auto_select]
    never returns Dynamic Programming or Backtracking as the best strategy:
    it returns Greedy unless the random total is strictly larger than
    [min(C, sum(D))], in which case it returns Random; the best total is
    the larger of the two. *)
Theorem auto_select_winner (randint : nat → Z → Z → Z) (depth : nat)
    (C : Z) (D : list Z) :
  valid_input C D → randint_contract randint → (length D ≤ depth)%nat →
  ∃ best_algo best_total results,
    auto_select randint depth C D = Returned (best_algo, best_total, results)
    ∧ best_total
      = Z.max (Z.min C (sum D)) (random_allocation randint C D).2
    ∧ (best_algo = "Greedy"%string
       ∧ (random_allocation randint C D).2 ≤ Z.min C (sum D)
       ∨ best_algo = "Random"%string
         ∧ Z.min C (sum D) < (random_allocation randint C D).2).
Proof.
  intros [HC HD] Hrand Hlen.
  destruct (dynamic_allocation_returns C D HC HD) as (allocation & Hrun & _).
  pose proof (greedy_allocation_total C D HC HD) as Hgreedy.
  pose proof (dp_spec_le D (length D) C HC) as Hdyn1.
  pose proof (dp_spec_le_sum D (length D) C HD) as Hdyn2.
  pose proof (backtracking_value_within C D HC) as Hbt1.
  pose proof (sum_sublist_le _ _ HD (backtracking_value_sublist C D))
    as Hbt2.
  rewrite backtracking_value_sum in Hbt2.
  unfold auto_select. rewrite Hrun, bind_Returned.
  rewrite backtracking_allocation_returns by done.
  rewrite bind_Returned. cbv zeta.
  unfold max_by_value. cbn [foldl snd].
  rewrite Hgreedy.
  rewrite (proj2 (Z.ltb_ge (Z.min C (sum D)) (dp_spec D (length D) C)))
    by lia.
  cbn [snd].
  rewrite (proj2 (Z.ltb_ge (Z.min C (sum D))
                    (backtracking_value C D).2)) by lia.
  cbn [snd].
  destruct (Z.ltb_spec (Z.min C (sum D)) (random_allocation randint C D).2).
  - do 3 eexists. split; [reflexivity|]. split; [lia|]. right. by split.
  - do 3 eexists. split; [reflexivity|]. split; [lia|]. left. by split.
Qed.

Lemma auto_select_winner_witness :
  valid_input 5 [2; 4] ∧ randint_contract (λ _ _ b, b)
  ∧ (length [2; 4]%Z ≤ 2)%nat
  ∧ ∃ best_algo best_total results,
      auto_select (λ _ _ b, b) 2 5 [2; 4]
      = Returned (best_algo, best_total, results)
      ∧ best_total
        = Z.max (Z.min 5 (sum [2; 4]))
            (random_allocation (λ _ _ b, b) 5 [2; 4]).2
      ∧ (best_algo = "Greedy"%string
         ∧ (random_allocation (λ _ _ b, b) 5 [2; 4]).2 ≤ Z.min 5 (sum [2; 4])
         ∨ best_algo = "Random"%string
           ∧ Z.min 5 (sum [2; 4])
             < (random_allocation (λ _ _ b, b) 5 [2; 4]).2).
Proof.
  assert (valid_input 5 [2; 4]) as Hvalid
    by (split; [lia | repeat constructor]).
  assert (randint_contract (λ _ _ b, b)) as Hrand
    by (intros k a b Hab; simpl; lia).
  assert (length [2; 4]%Z ≤ 2)%nat as Hlen by (simpl; lia).
  split; [exact Hvalid|]. split; [exact Hrand|]. split; [exact Hlen|].
  exact (auto_select_winner (λ _ _ b, b) 2 5 [2; 4] Hvalid Hrand Hlen).
Defined.

(** X18.  On valid input whose demands reach the capacity
    ([C <= sum(D)]) and whose demand list is not longer than the recursion
    depth available, and with draws in range, [auto_select] always returns
    Greedy as the best strategy, with best total [C]. *)
Theorem auto_select_saturated (randint : nat → Z → Z → Z) (depth : nat)
    (C : Z) (D : list Z) :
  valid_input C D → randint_contract randint → C ≤ sum D →
  (length D ≤ depth)%nat →
  ∃ results,
    auto_select randint depth C D = Returned ("Greedy"%string, C, results).
Proof.
  intros [HC HD] Hrand Hsat Hlen.
  destruct (dynamic_allocation_returns C D HC HD) as (allocation & Hrun & _).
  pose proof (greedy_allocation_total C D HC HD) as Hgreedy.
  pose proof (dp_spec_le D (length D) C HC) as Hdyn.
  pose proof (backtracking_value_within C D HC) as Hbt.
  pose proof (random_allocation_bound randint Hrand C D HC) as Hrnd.
  unfold auto_select. rewrite Hrun, bind_Returned.
  rewrite backtracking_allocation_returns by done.
  rewrite bind_Returned. cbv zeta.
  unfold max_by_value. cbn [foldl snd].
  rewrite Hgreedy. replace (Z.min C (sum D)) with C by lia.
  rewrite (proj2 (Z.ltb_ge C (dp_spec D (length D) C))) by lia.
  cbn [snd].
  rewrite (proj2 (Z.ltb_ge C (backtracking_value C D).2)) by lia.
  cbn [snd].
  rewrite (proj2 (Z.ltb_ge C (random_allocation randint C D).2)) by lia.
  by eexists.
Qed.

Lemma auto_select_saturated_witness :
  valid_input 5 [2; 4] ∧ randint_contract (λ _ _ b, b) ∧ 5 ≤ sum [2; 4]
  ∧ (length [2; 4]%Z ≤ 2)%nat
  ∧ ∃ results,
      auto_select (λ _ _ b, b) 2 5 [2; 4]
      = Returned ("Greedy"%string, 5, results).
Proof.
  assert (valid_input 5 [2; 4]) as Hvalid
    by (split; [lia | repeat constructor]).
  assert (randint_contract (λ _ _ b, b)) as Hrand
    by (intros k a b Hab; simpl; lia).
  assert (5 ≤ sum [2; 4]) as Hsat by (vm_compute; discriminate).
  assert (length [2; 4]%Z ≤ 2)%nat as Hlen by (simpl; lia).
  split; [exact Hvalid|]. split; [exact Hrand|]. split; [exact Hsat|].
  split; [exact Hlen|].
  exact (auto_select_saturated (λ _ _ b, b) 2 5 [2; 4]
           Hvalid Hrand Hsat Hlen).
Defined.

(** X19.  With a negative capacity [auto_select] produces no report: the
    [IndexError] of [dynamic_allocation] propagates to the caller,
    whatever the demands, the draws and the recursion depth available. *)
Theorem auto_select_negative_capacity (randint : nat → Z → Z → Z)
    (depth : nat) (C : Z) (D : list Z) :
  C < 0 → auto_select randint depth C D = Raised IndexError.
Proof.
  intros HC. unfold auto_select.
  by rewrite dynamic_allocation_negative_capacity.
Qed.

Lemma auto_select_negative_capacity_witness :
  -5 < 0 ∧ auto_select (λ _ _ b, b) 0 (-5) [3] = Raised IndexError.
Proof.
  assert (-5 < 0) as HC by lia.
  split; [exact HC|].
  exact (auto_select_negative_capacity (λ _ _ b, b) 0 (-5) [3] HC).
Defined.

(** X22.  On valid input whose demand list is longer than the recursion
    depth available, [auto_select] produces no report: the
    [RecursionError] of [backtracking_allocation] propagates to the
    caller. *)
Theorem auto_select_recursion_overflow (randint : nat → Z → Z → Z)
    (depth : nat) (C : Z) (D : list Z) :
  valid_input C D → (depth < length D)%nat →
  auto_select randint depth C D = Raised RecursionError.
Proof. intros [HC HD] Hlen. by apply auto_select_overflow. Qed.

Lemma auto_select_recursion_overflow_witness :
  valid_input 5 [2; 4; 3] ∧ (2 < length [2; 4; 3]%Z)%nat
  ∧ auto_select (λ _ _ b, b) 2 5 [2; 4; 3] = Raised RecursionError.
Proof.
  assert (valid_input 5 [2; 4; 3]) as Hvalid
    by (split; [lia | repeat constructor]).
  assert (2 < length [2; 4; 3]%Z)%nat as Hlen by (simpl; lia).
  split; [exact Hvalid|]. split; [exact Hlen|].
  exact (auto_select_recursion_overflow (λ _ _ b, b) 2 5 [2; 4; 3]
           Hvalid Hlen).
Defined.

(** *** The strategy dispatch *)

(** X20.  On valid input and with draws in range, the strategy the caller
    chooses (for Backtracking: provided the demand list is not longer than
    the recursion depth available) returns without error an allocation of
    non-negative amounts that add up to the reported total, and that total
    lies between 0 and the capacity. *)
Theorem run_strategy_response (randint : nat → Z → Z → Z) (depth : nat)
    (algo_choice : strategy) (C : Z) (D : list Z) :
  valid_input C D → randint_contract randint →
  (algo_choice = Backtracking → (length D ≤ depth)%nat) →
  ∃ allocation total,
    run_strategy randint depth algo_choice C D = Returned (allocation, total)
    ∧ Forall (λ a, 0 ≤ a) allocation
    ∧ sum allocation = total
    ∧ 0 ≤ total ≤ C.
Proof.
  intros [HC HD] Hrand Hdepth. destruct algo_choice; simpl.
  - exists (greedy_allocation C D).1, (greedy_allocation C D).2.
    split; [by destruct (greedy_allocation C D)|].
    split; [by apply greedy_allocation_nonneg|].
    split; [apply greedy_allocation_sum|].
    rewrite greedy_allocation_total by done.
    pose proof (sum_nonneg D HD). lia.
  - destruct (dynamic_allocation_returns C D HC HD)
      as (allocation & Hrun & Hsum & Hsub).
    exists allocation, (dp_spec D (length D) C). split; [done|].
    split; [|split; [done|]].
    + apply positive_nonneg, Forall_reverse. by eapply sublist_positive.
    + split; [apply dp_spec_nonneg|by apply dp_spec_le].
  - rewrite backtracking_allocation_returns by auto.
    exists (backtracking_value C D).1, (backtracking_value C D).2.
    split; [by destruct (backtracking_value C D)|].
    split; [|split; [apply backtracking_value_sum|]].
    + apply positive_nonneg.
      eapply sublist_positive; [apply backtracking_value_sublist|done].
    + by apply backtracking_value_bounds.
  - exists (random_allocation randint C D).1, (random_allocation randint C D).2.
    split; [by destruct (random_allocation randint C D)|].
    pose proof (random_allocation_bound randint Hrand C D HC) as Hbound.
    split; [|split; [apply random_allocation_sum|done]].
    unfold random_allocation.
    pose proof (random_loop_entries randint Hrand D 0%nat [] C C
                  ltac:(lia) ltac:(constructor)) as Hentries.
    destruct (random_loop randint D 0%nat [] C) as [allocation remaining].
    simpl in *. eapply Forall_impl; [exact Hentries|]. simpl. intros; lia.
Qed.

Lemma run_strategy_response_witness :
  valid_input 5 [2; 4] ∧ randint_contract (λ _ _ b, b)
  ∧ (Backtracking = Backtracking → (length [2; 4]%Z ≤ 2)%nat)
  ∧ ∃ allocation total,
      run_strategy (λ _ _ b, b) 2 Backtracking 5 [2; 4]
      = Returned (allocation, total)
      ∧ Forall (λ a, 0 ≤ a) allocation
      ∧ sum allocation = total
      ∧ 0 ≤ total ≤ 5.
Proof.
  assert (valid_input 5 [2; 4]) as Hvalid
    by (split; [lia | repeat constructor]).
  assert (randint_contract (λ _ _ b, b)) as Hrand
    by (intros k a b Hab; simpl; lia).
  assert (Backtracking = Backtracking → (length [2; 4]%Z ≤ 2)%nat) as Hdepth
    by (intros _; simpl; lia).
  split; [exact Hvalid|]. split; [exact Hrand|]. split; [exact Hdepth|].
  exact (run_strategy_response (λ _ _ b, b) 2 Backtracking 5 [2; 4]
           Hvalid Hrand Hdepth).
Defined.
